(** * NetRouter AI dashboard script (app/static/js/dashboard.js)

    A shallow embedding of the dashboard script: the chat widget
    ([enviarMensagem], [adicionarMensagemChat] and the promise handlers
    attached to the [fetch] call), the tooltip controller
    ([mostrarTooltip], [esconderTooltip]), the toast helper
    ([mostrarNotificacao]) with the timers it schedules, and the helpers
    [toggleChat], [animarCardsEntrada], [copiarParaClipboard] and
    [debounce].

    JavaScript strings are sequences of UTF-16 code units; they are modelled
    as [list Z].  The four [String.prototype.replace] calls of
    [adicionarMensagemChat] are modelled by a backtracking matcher for the
    fragment of the regular-expression language they use. *)

From Stdlib Require Import ZArith Bool Lia Ascii String DecimalString List.
Import ListNotations.

Set Implicit Arguments.
Open Scope Z_scope.

(* ================================================================== *)
(** * JavaScript strings *)
(* ================================================================== *)

Module JS.

(** A string is its sequence of UTF-16 code units. *)
Definition jsstring := list Z.

(** Code units of an ASCII-only literal. *)
Fixpoint str (s : string) : jsstring :=
  match s with
  | EmptyString => []
  | String a s' => Z.of_N (N_of_ascii a) :: str s'
  end.

Definition eqb_string (a b : jsstring) : bool :=
  if list_eq_dec Z.eq_dec a b then true else false.

(** ECMAScript LineTerminator: LF, CR, LS, PS. *)
Definition is_line_terminator (c : Z) : bool :=
  (c =? 10) || (c =? 13) || (c =? 8232) || (c =? 8233).

(** ECMAScript WhiteSpace together with LineTerminator: what [trim] strips
    and what [\s] matches. *)
Definition is_white_space (c : Z) : bool :=
  (c =? 9) || (c =? 11) || (c =? 12) || (c =? 32) || (c =? 160)
  || (c =? 5760) || ((8192 <=? c) && (c <=? 8202))
  || (c =? 8239) || (c =? 8287) || (c =? 12288) || (c =? 65279)
  || is_line_terminator c.

(** [\w] is [A-Za-z0-9_]. *)
Definition is_word_char (c : Z) : bool :=
  ((97 <=? c) && (c <=? 122)) || ((65 <=? c) && (c <=? 90))
  || ((48 <=? c) && (c <=? 57)) || (c =? 95).

Fixpoint trim_start (s : jsstring) : jsstring :=
  match s with
  | c :: s' => if is_white_space c then trim_start s' else s
  | [] => []
  end.

(** [String.prototype.trim]. *)
Definition trim (s : jsstring) : jsstring :=
  rev (trim_start (rev (trim_start s))).

End JS.
Import JS.

(* ================================================================== *)
(** * Regular expressions: the fragment used by the script *)
(* ================================================================== *)

Module Regex.

(** One-character matchers: a literal (or escaped) character, [.], the
    class escapes [\w], [\s], [\S], and the union of two of those in a
    bracketed class. *)
Inductive cset : Type :=
| Lit (c : Z)
| Dot
| Word
| Space
| NonSpace
| Union (k1 k2 : cset).

Fixpoint cset_mem (k : cset) (c : Z) : bool :=
  match k with
  | Lit d => c =? d
  | Dot => negb (is_line_terminator c)
  | Word => is_word_char c
  | Space => is_white_space c
  | NonSpace => negb (is_white_space c)
  | Union k1 k2 => cset_mem k1 c || cset_mem k2 c
  end.

(** Patterns.  Every quantifier of the script ranges over a one-character
    matcher: [\w*], [\n?], [[\s\S]*?] and [.*?]. *)
Inductive regex : Type :=
| Sym (k : cset)
| Cat (r1 r2 : regex)
| Grp (n : nat) (r : regex)
| Star (greedy : bool) (k : cset)
| Opt (k : cset).

(** Captures: group number and captured text, most recent first. *)
Definition caps := list (nat * jsstring).

(** A match result: the input left after the match, and the captures. *)
Definition mres := option (jsstring * caps).

Definition cont := jsstring -> caps -> mres.

Definition or_else (a : mres) (b : mres) : mres :=
  match a with Some r => Some r | None => b end.

(** Greedy [k*]: take as many characters as possible, give them back one
    at a time while the rest of the pattern fails. *)
Fixpoint star_greedy (k : cset) (K : cont) (s : jsstring) (c : caps) : mres :=
  match s with
  | ch :: s' =>
      if cset_mem k ch then or_else (star_greedy k K s' c) (K s c) else K s c
  | [] => K s c
  end.

(** Lazy [k*?]: try the rest of the pattern first, take one more character
    only when that fails. *)
Fixpoint star_lazy (k : cset) (K : cont) (s : jsstring) (c : caps) : mres :=
  match K s c with
  | Some r => Some r
  | None =>
      match s with
      | ch :: s' => if cset_mem k ch then star_lazy k K s' c else None
      | [] => None
      end
  end.

(** The backtracking matcher, in continuation-passing style: [m r K s c]
    matches [r] at the head of [s] and hands what is left to [K]. *)
Fixpoint m (r : regex) (K : cont) (s : jsstring) (c : caps) : mres :=
  match r with
  | Sym k =>
      match s with
      | ch :: s' => if cset_mem k ch then K s' c else None
      | [] => None
      end
  | Cat r1 r2 => m r1 (m r2 K) s c
  | Grp n r' =>
      m r' (fun s1 c1 =>
              K s1 ((n, firstn (length s - length s1) s) :: c1)) s c
  | Star true k => star_greedy k K s c
  | Star false k => star_lazy k K s c
  | Opt k =>
      match s with
      | ch :: s' => if cset_mem k ch then or_else (K s' c) (K s c) else K s c
      | [] => K s c
      end
  end.

(** A match anchored at the head of [s]. *)
Definition exec_at (r : regex) (s : jsstring) : mres :=
  m r (fun s' c => Some (s', c)) s [].

(** Replacement templates: literal text and [$n] group references. *)
Inductive titem : Type :=
| TLit (l : jsstring)
| TGroup (n : nat).

Fixpoint group (n : nat) (c : caps) : jsstring :=
  match c with
  | (k, v) :: c' => if Nat.eqb k n then v else group n c'
  | [] => []
  end.

Fixpoint subst (tpl : list titem) (c : caps) : jsstring :=
  match tpl with
  | TLit l :: tpl' => l ++ subst tpl' c
  | TGroup n :: tpl' => group n c ++ subst tpl' c
  | [] => []
  end.

(** [s.replace(/r/g, tpl)]: scan left to right; at each position not
    covered by the previous match try the pattern, emit the substituted
    template on success and the character itself on failure.  [skip] counts
    the characters still covered by the last match; after an empty match the
    scan advances by one character, which is copied. *)
Fixpoint replace_from (r : regex) (tpl : list titem)
         (s : jsstring) (skip : nat) : jsstring :=
  match s with
  | [] =>
      match skip with
      | O => match exec_at r [] with
             | Some (_, c) => subst tpl c
             | None => []
             end
      | S _ => []
      end
  | ch :: s' =>
      match skip with
      | S k => replace_from r tpl s' k
      | O =>
          match exec_at r s with
          | Some (rest, c) =>
              match (length s - length rest)%nat with
              | O => subst tpl c ++ ch :: replace_from r tpl s' O
              | S k => subst tpl c ++ replace_from r tpl s' k
              end
          | None => ch :: replace_from r tpl s' O
          end
      end
  end.

Definition replace_all (r : regex) (tpl : list titem) (s : jsstring) : jsstring :=
  replace_from r tpl s O.

End Regex.
Import Regex.

(* ================================================================== *)
(** * The markdown formatting of [adicionarMensagemChat] *)
(* ================================================================== *)

Module Markdown.

Definition backtick : Z := 96.
Definition asterisk : Z := 42.
Definition newline : Z := 10.

(** The fenced-block pattern (flag g): three backticks, group 1 = [\w*],
    [\n?], group 2 = [[\s\S]*?], three backticks. *)
Definition re_fence : regex :=
  Cat (Sym (Lit backtick)) (Cat (Sym (Lit backtick)) (Cat (Sym (Lit backtick))
  (Cat (Grp 1 (Star true Word))
  (Cat (Opt (Lit newline))
  (Cat (Grp 2 (Star false (Union Space NonSpace)))
  (Cat (Sym (Lit backtick)) (Cat (Sym (Lit backtick)) (Sym (Lit backtick))))))))).

(** The bold pattern (flag g): two asterisks, group 1 = [.*?], two
    asterisks. *)
Definition re_bold : regex :=
  Cat (Sym (Lit asterisk)) (Cat (Sym (Lit asterisk))
  (Cat (Grp 1 (Star false Dot))
  (Cat (Sym (Lit asterisk)) (Sym (Lit asterisk))))).

(** The inline-code pattern (flag g): a backtick, group 1 = [.*?], a
    backtick. *)
Definition re_code : regex :=
  Cat (Sym (Lit backtick)) (Cat (Grp 1 (Star false Dot)) (Sym (Lit backtick))).

(** The newline pattern (flag g): [\n]. *)
Definition re_newline : regex := Sym (Lit newline).

Definition pre_open : jsstring := Eval cbv in str "<pre>".
Definition pre_close : jsstring := Eval cbv in str "</pre>".
Definition strong_open : jsstring := Eval cbv in str "<strong>".
Definition strong_close : jsstring := Eval cbv in str "</strong>".
Definition code_open : jsstring := Eval cbv in str "<code>".
Definition code_close : jsstring := Eval cbv in str "</code>".
Definition br : jsstring := Eval cbv in str "<br>".

(** ['<pre>$2</pre>'], ['<strong>$1</strong>'], ['<code>$1</code>'], ['<br>'] *)
Definition tpl_fence : list titem := [TLit pre_open; TGroup 2; TLit pre_close].
Definition tpl_bold : list titem := [TLit strong_open; TGroup 1; TLit strong_close].
Definition tpl_code : list titem := [TLit code_open; TGroup 1; TLit code_close].
Definition tpl_newline : list titem := [TLit br].

Definition replace_fence : jsstring -> jsstring := replace_all re_fence tpl_fence.
Definition replace_bold : jsstring -> jsstring := replace_all re_bold tpl_bold.
Definition replace_code : jsstring -> jsstring := replace_all re_code tpl_code.
Definition replace_newline : jsstring -> jsstring := replace_all re_newline tpl_newline.

(** [let html = conteudo.replace(...).replace(...).replace(...).replace(...)] *)
Definition html (conteudo : jsstring) : jsstring :=
  replace_newline (replace_code (replace_bold (replace_fence conteudo))).

(** ** Vocabulary for stating what the substitutions do *)

(** [d] does not occur in [x]. *)
Definition no_char (d : Z) (x : jsstring) : Prop := forall ch, In ch x -> ch <> d.

(** [x] has no line terminator: [.] matches each of its characters. *)
Definition single_line (x : jsstring) : Prop :=
  forall ch, In ch x -> is_line_terminator ch = false.

(** [x] is made of [\w] characters. *)
Definition words (x : jsstring) : Prop := forall ch, In ch x -> is_word_char ch = true.

(** What the newline substitution does to one character. *)
Definition newline_to_br (ch : Z) : jsstring :=
  if ch =? newline then br else [ch].

Definition fence : jsstring := [backtick; backtick; backtick].

(** ** Delimited spans, as the description of the formatter has them *)

(** [s] without the delimiter [d] it starts with. *)
Fixpoint strip_prefix (d s : jsstring) : option jsstring :=
  match d, s with
  | [], _ => Some s
  | a :: d', b :: s' => if a =? b then strip_prefix d' s' else None
  | _ :: _, [] => None
  end.

(** The text of [s] up to the nearest delimiter [d], and the text after
    that delimiter; no line terminator may come before the delimiter. *)
Fixpoint span_end (d s : jsstring) : option (jsstring * jsstring) :=
  match strip_prefix d s with
  | Some post => Some ([], post)
  | None =>
      match s with
      | ch :: s' =>
          if is_line_terminator ch then None
          else match span_end d s' with
               | Some (x, post) => Some (ch :: x, post)
               | None => None
               end
      | [] => None
      end
  end.

(** A span at the head of [s]: the delimiter, a text [x], the delimiter.
    The result is [x] and what follows the span. *)
Definition span_at (d s : jsstring) : option (jsstring * jsstring) :=
  match strip_prefix d s with
  | Some s1 => span_end d s1
  | None => None
  end.

(** [f] reads its input from left to right: where a span delimited by [d]
    starts, its text is put between [open] and [close] and reading goes on
    after the span; any other character is copied. *)
Definition marks (d open close : jsstring) (f : jsstring -> jsstring) : Prop :=
  f [] = []
  /\ (forall s x post,
        span_at d s = Some (x, post) -> f s = open ++ x ++ close ++ f post)
  /\ (forall ch s,
        span_at d (ch :: s) = None -> f (ch :: s) = ch :: f s).

(** Two adjacent occurrences of [c] in [s]. *)
Fixpoint has_double (c : Z) (s : jsstring) : bool :=
  match s with
  | a :: s' =>
      match s' with
      | b :: _ => ((a =? c) && (b =? c)) || has_double c s'
      | [] => false
      end
  | [] => false
  end.

Definition no_double (c : Z) (s : jsstring) : Prop := has_double c s = false.

End Markdown.
Import Markdown.

(* ================================================================== *)
(** * The page *)
(* ================================================================== *)

Module Dom.

(** ASCII whitespace separates class names. *)
Definition is_ascii_whitespace (c : Z) : bool :=
  (c =? 9) || (c =? 10) || (c =? 12) || (c =? 13) || (c =? 32).

(** The class names of a [className] string, in order.  [cur] is the
    name being read, last character first. *)
Fixpoint split_classes (s : jsstring) (cur : jsstring) : list jsstring :=
  match s with
  | [] => match cur with [] => [] | _ => [rev cur] end
  | ch :: s' =>
      if is_ascii_whitespace ch
      then match cur with
           | [] => split_classes s' []
           | _ => rev cur :: split_classes s' []
           end
      else split_classes s' (ch :: cur)
  end.

(** An ordered set of names: of a repeated name the first occurrence is
    kept.  [seen] are the names met so far. *)
Fixpoint ordered_set (seen l : list jsstring) : list jsstring :=
  match l with
  | [] => []
  | t :: l' =>
      if existsb (eqb_string t) seen then ordered_set seen l'
      else t :: ordered_set (t :: seen) l'
  end.

Definition class_tokens (className : jsstring) : list jsstring :=
  ordered_set [] (split_classes className []).

(** What was assigned to an element: [innerHTML] markup (kept as the
    assigned string) or [textContent]. *)
Inductive content : Type :=
| InnerHTML (markup : jsstring)
| TextContent (text : jsstring).

(** An element made by [document.createElement('div')].  [node_id] is the
    identity of the object; [classList] is the token set of its [className];
    [style_top] and [style_left] are the inline style properties the script
    assigns. *)
Record node : Type := {
  node_id : nat;
  classList : list jsstring;
  node_content : content;
  style_top : option jsstring;
  style_left : option jsstring
}.

Definition has_class (cls : jsstring) (n : node) : bool :=
  existsb (eqb_string cls) (classList n).

Definition classList_add (cls : jsstring) (n : node) : node :=
  {| node_id := node_id n;
     classList := if has_class cls n then classList n else classList n ++ [cls];
     node_content := node_content n;
     style_top := style_top n;
     style_left := style_left n |}.

Definition classList_remove (cls : jsstring) (n : node) : node :=
  {| node_id := node_id n;
     classList := filter (fun t => negb (eqb_string cls t)) (classList n);
     node_content := node_content n;
     style_top := style_top n;
     style_left := style_left n |}.

(** Values a rejected promise or a [throw] carries. *)
Inductive error : Type :=
| FetchFailure (detail : jsstring)
| JsonSyntaxError (detail : jsstring)
| TypeError.

(** A [fetch] call. *)
Record request : Type := {
  url : jsstring;
  method : jsstring;
  headers : list (jsstring * jsstring);
  body : jsstring
}.

(** The callbacks handed to [setTimeout] by [mostrarNotificacao]; each one
    closes over its toast element. *)
Inductive callback : Type :=
| ToastShow (toast : nat)
| ToastHide (toast : nat)
| ToastRemove (toast : nat).

Record timer : Type := { delay : Z; timer_callback : callback }.

(** The part of the page the script reads and writes.  [chatMessages] are
    the children of the element with that id, first to last;
    [body_children] are the other elements a class selector can find, in
    document order, ending with those appended to [document.body]. *)
Record page : Type := {
  chatInput_value : jsstring;
  chatMessages : list node;
  chat_scrolled_to_end : bool;
  body_children : list node;
  timers : list timer;
  fetches : list request;
  console_error : list (jsstring * error);
  next_id : nat
}.

Definition set_chatInput_value (v : jsstring) (p : page) : page :=
  {| chatInput_value := v; chatMessages := chatMessages p;
     chat_scrolled_to_end := chat_scrolled_to_end p;
     body_children := body_children p; timers := timers p;
     fetches := fetches p; console_error := console_error p;
     next_id := next_id p |}.

Definition set_chatMessages (l : list node) (p : page) : page :=
  {| chatInput_value := chatInput_value p; chatMessages := l;
     chat_scrolled_to_end := chat_scrolled_to_end p;
     body_children := body_children p; timers := timers p;
     fetches := fetches p; console_error := console_error p;
     next_id := next_id p |}.

Definition set_chat_scrolled_to_end (b : bool) (p : page) : page :=
  {| chatInput_value := chatInput_value p; chatMessages := chatMessages p;
     chat_scrolled_to_end := b;
     body_children := body_children p; timers := timers p;
     fetches := fetches p; console_error := console_error p;
     next_id := next_id p |}.

Definition set_body_children (l : list node) (p : page) : page :=
  {| chatInput_value := chatInput_value p; chatMessages := chatMessages p;
     chat_scrolled_to_end := chat_scrolled_to_end p;
     body_children := l; timers := timers p;
     fetches := fetches p; console_error := console_error p;
     next_id := next_id p |}.

Definition set_timers (l : list timer) (p : page) : page :=
  {| chatInput_value := chatInput_value p; chatMessages := chatMessages p;
     chat_scrolled_to_end := chat_scrolled_to_end p;
     body_children := body_children p; timers := l;
     fetches := fetches p; console_error := console_error p;
     next_id := next_id p |}.

Definition set_fetches (l : list request) (p : page) : page :=
  {| chatInput_value := chatInput_value p; chatMessages := chatMessages p;
     chat_scrolled_to_end := chat_scrolled_to_end p;
     body_children := body_children p; timers := timers p;
     fetches := l; console_error := console_error p;
     next_id := next_id p |}.

Definition set_console_error (l : list (jsstring * error)) (p : page) : page :=
  {| chatInput_value := chatInput_value p; chatMessages := chatMessages p;
     chat_scrolled_to_end := chat_scrolled_to_end p;
     body_children := body_children p; timers := timers p;
     fetches := fetches p; console_error := l;
     next_id := next_id p |}.

Definition set_next_id (n : nat) (p : page) : page :=
  {| chatInput_value := chatInput_value p; chatMessages := chatMessages p;
     chat_scrolled_to_end := chat_scrolled_to_end p;
     body_children := body_children p; timers := timers p;
     fetches := fetches p; console_error := console_error p;
     next_id := n |}.

(** ** Computations on the page that may throw *)

Inductive result (A : Type) : Type :=
| Ok (a : A)
| Throw (e : error).
Arguments Ok {A} a.
Arguments Throw {A} e.

Definition M (A : Type) : Type := page -> result A * page.

Definition ret {A} (a : A) : M A := fun p => (Ok a, p).

Definition bind {A B} (c : M A) (f : A -> M B) : M B :=
  fun p => match c p with
           | (Ok a, p') => f a p'
           | (Throw e, p') => (Throw e, p')
           end.

Definition throw {A} (e : error) : M A := fun p => (Throw e, p).

Definition gets {A} (f : page -> A) : M A := fun p => (Ok (f p), p).

Definition modify (f : page -> page) : M unit := fun p => (Ok tt, f p).

(** [c.catch(h)] for a handler chain run to completion. *)
Definition catch {A} (c : M A) (h : error -> M A) : M A :=
  fun p => match c p with
           | (Ok a, p') => (Ok a, p')
           | (Throw e, p') => h e p'
           end.

Definition exec {A} (c : M A) (p : page) : page := snd (c p).

(** [document.createElement('div')] *)
Definition createElement : M nat :=
  fun p => (Ok (next_id p), set_next_id (S (next_id p)) p).

End Dom.
Import Dom.

Notation "x <- c1 ;; c2" := (bind c1 (fun x => c2))
  (at level 61, c1 at next level, right associativity).
Notation "c1 ;; c2" := (bind c1 (fun _ => c2))
  (at level 61, right associativity).

(* ================================================================== *)
(** * Values of the language *)
(* ================================================================== *)

Module Value.

(** Numbers are IEEE doubles; the script only converts them to booleans and
    strings and does pixel arithmetic on them, so they are an interface. *)
Class JsNumber (number : Type) : Type := {
  number_truthy : number -> bool;
  number_to_string : number -> jsstring;
  number_of_Z : Z -> number;
  number_sub : number -> number -> number;
  number_add : number -> number -> number;
  number_div : number -> number -> number
}.

#[local] Unset Elimination Schemes.

(** What [response.json()] can produce, plus [undefined] (the value of a
    missing property).  An object is its list of own properties; a lookup
    takes the first entry for a key. *)
Inductive value (number : Type) : Type :=
| VUndefined
| VNull
| VBool (b : bool)
| VNumber (n : number)
| VString (s : jsstring)
| VArray (items : list (value number))
| VObject (props : list (jsstring * value number)).

#[local] Set Elimination Schemes.

Arguments VUndefined {number}.
Arguments VNull {number}.
Arguments VBool {number} b.
Arguments VNumber {number} n.
Arguments VString {number} s.
Arguments VArray {number} items.
Arguments VObject {number} props.

Section Conversions.

Context {number : Type} `{JsNumber number}.

Fixpoint lookup (key : jsstring) (props : list (jsstring * value number))
  : option (value number) :=
  match props with
  | (k, v) :: props' => if eqb_string key k then Some v else lookup key props'
  | [] => None
  end.

(** ToBoolean. *)
Definition truthy (v : value number) : bool :=
  match v with
  | VUndefined | VNull => false
  | VBool b => b
  | VNumber n => number_truthy n
  | VString s => match s with [] => false | _ => true end
  | VArray _ | VObject _ => true
  end.

Definition s_undefined : jsstring := Eval cbv in str "undefined".
Definition s_null : jsstring := Eval cbv in str "null".
Definition s_true : jsstring := Eval cbv in str "true".
Definition s_false : jsstring := Eval cbv in str "false".
Definition s_object : jsstring := Eval cbv in str "[object Object]".
Definition s_toString : jsstring := Eval cbv in str "toString".
Definition comma : Z := 44.

(** The string a value contributes to a string concatenation; [None] when
    the conversion throws a TypeError.  An array joins its elements with
    commas, [null] and [undefined] elements giving the empty string.  A
    plain object gives ["[object Object]"], unless it has an own property
    named [toString]: that property is not a function, and the inherited
    [valueOf] returns the object, so no primitive is found. *)
Fixpoint to_string (v : value number) : option jsstring :=
  match v with
  | VUndefined => Some s_undefined
  | VNull => Some s_null
  | VBool true => Some s_true
  | VBool false => Some s_false
  | VNumber n => Some (number_to_string n)
  | VString s => Some s
  | VArray items =>
      let element (e : value number) : option jsstring :=
        match e with
        | VUndefined | VNull => Some []
        | _ => to_string e
        end in
      (fix join (l : list (value number)) : option jsstring :=
         match l with
         | [] => Some []
         | [e] => element e
         | e :: l' =>
             match element e, join l' with
             | Some a, Some b => Some (a ++ comma :: b)
             | _, _ => None
             end
         end) items
  | VObject props =>
      match lookup s_toString props with
      | Some _ => None
      | None => Some s_object
      end
  end.

End Conversions.

End Value.
Import Value.

(* ================================================================== *)
(** * The chat widget *)
(* ================================================================== *)

Module Chat.

Definition quote : Z := 34.
Definition backslash : Z := 92.

(** ** [JSON.stringify] of the request object *)

Definition hex_digit (d : Z) : Z := if d <? 10 then 48 + d else 87 + d.

(** [\uXXXX], lower-case hexadecimal. *)
Definition unicode_escape (c : Z) : jsstring :=
  [backslash; 117; hex_digit (c / 4096 mod 16); hex_digit (c / 256 mod 16);
   hex_digit (c / 16 mod 16); hex_digit (c mod 16)].

Definition is_high_surrogate (c : Z) : bool := (55296 <=? c) && (c <=? 56319).
Definition is_low_surrogate (c : Z) : bool := (56320 <=? c) && (c <=? 57343).

Definition escape_char (c : Z) : jsstring :=
  if c =? 8 then [backslash; 98]
  else if c =? 9 then [backslash; 116]
  else if c =? 10 then [backslash; 110]
  else if c =? 12 then [backslash; 102]
  else if c =? 13 then [backslash; 114]
  else if c =? quote then [backslash; quote]
  else if c =? backslash then [backslash; backslash]
  else if c <? 32 then unicode_escape c
  else [c].

(** The characters of a quoted JSON string: the short escapes, [\u00XX]
    for the other control characters, [\uDXXX] for a surrogate that is not
    part of a pair. *)
Fixpoint quote_chars (s : jsstring) : jsstring :=
  match s with
  | [] => []
  | c :: s' =>
      if is_high_surrogate c then
        match s' with
        | d :: s'' =>
            if is_low_surrogate d then c :: d :: quote_chars s''
            else unicode_escape c ++ quote_chars s'
        | [] => unicode_escape c
        end
      else if is_low_surrogate c then unicode_escape c ++ quote_chars s'
      else escape_char c ++ quote_chars s'
  end.

Definition QuoteJSONString (s : jsstring) : jsstring :=
  quote :: quote_chars s ++ [quote].

Definition s_mensagem : jsstring := Eval cbv in str "mensagem".

(** [JSON.stringify({ mensagem: mensagem })] *)
Definition stringify_request (mensagem : jsstring) : jsstring :=
  123 :: QuoteJSONString s_mensagem ++ 58 :: QuoteJSONString mensagem ++ [125].

(** ** Literals of the script *)

Definition s_message_ : jsstring := Eval cbv in str "message ".
Definition s_message : jsstring := Eval cbv in str "message".
Definition s_user : jsstring := Eval cbv in str "user".
Definition s_assistant : jsstring := Eval cbv in str "assistant".
Definition p_open : jsstring := Eval cbv in str "<p>".
Definition p_close : jsstring := Eval cbv in str "</p>".

(** ['<em class="typing">Pensando...</em>'] *)
Definition s_pensando : jsstring :=
  Eval cbv in str "<em class=" ++ quote :: str "typing" ++ quote :: str ">Pensando...</em>".

Definition s_url : jsstring := Eval cbv in str "/ai/chat".
Definition s_POST : jsstring := Eval cbv in str "POST".
Definition s_Content_Type : jsstring := Eval cbv in str "Content-Type".
Definition s_application_json : jsstring := Eval cbv in str "application/json".

Definition s_sucesso : jsstring := Eval cbv in str "sucesso".
Definition s_resposta : jsstring := Eval cbv in str "resposta".
Definition s_erro : jsstring := Eval cbv in str "erro".

(** The cross mark U+274C followed by a space. *)
Definition cross_ : jsstring := [10060; 32].

(** The connection-error line: the cross mark, a space and the fixed text,
    whose 14th letter is U+00E3. *)
Definition s_erro_conexao : jsstring :=
  Eval cbv in cross_ ++ str "Erro de conex" ++ 227 :: str "o com o servidor.".

Definition s_erro_no_chat : jsstring := Eval cbv in str "Erro no chat:".

Section Handlers.

Context {number : Type} `{JsNumber number}.

(** [adicionarMensagemChat(role, conteudo)].  [conteudo.replace] throws
    when [conteudo] is not a string; the element has been created by then
    but not attached. *)
Definition adicionarMensagemChat (role : jsstring) (conteudo : value number) : M unit :=
  div <- createElement ;;
  let className := s_message_ ++ role in
  match conteudo with
  | VString s =>
      let html := html s in
      let n := {| node_id := div;
                  classList := class_tokens className;
                  node_content := InnerHTML (p_open ++ html ++ p_close);
                  style_top := None;
                  style_left := None |} in
      modify (fun p => set_chatMessages (chatMessages p ++ [n]) p) ;;
      modify (set_chat_scrolled_to_end true)
  | _ => throw TypeError
  end.

(** [fetch(url, options)]: the call is recorded. *)
Definition fetch (r : request) : M unit :=
  modify (fun p => set_fetches (fetches p ++ [r]) p).

(** [enviarMensagem()], up to the [fetch] call. *)
Definition enviarMensagem : M unit :=
  input_value <- gets chatInput_value ;;
  let mensagem := trim input_value in
  match mensagem with
  | [] => ret tt
  | _ =>
      adicionarMensagemChat s_user (VString mensagem) ;;
      modify (set_chatInput_value []) ;;
      adicionarMensagemChat s_assistant (VString s_pensando) ;;
      fetch {| url := s_url;
               method := s_POST;
               headers := [(s_Content_Type, s_application_json)];
               body := stringify_request mensagem |}
  end.

(** [mensagens.removeChild(mensagens.lastChild)]: with no child,
    [lastChild] is [null] and [removeChild] throws. *)
Definition removeChild_lastChild : M unit :=
  l <- gets chatMessages ;;
  match l with
  | [] => throw TypeError
  | _ => modify (set_chatMessages (removelast l))
  end.

(** [data.key], for the three keys the script reads; none of them is a
    property of a string, number, boolean or array, nor inherited by an
    object.  Reading a property of [null] throws. *)
Definition get_field (key : jsstring) (data : value number) : M (value number) :=
  match data with
  | VUndefined | VNull => throw TypeError
  | VObject props =>
      match lookup key props with
      | Some v => ret v
      | None => ret VUndefined
      end
  | _ => ret VUndefined
  end.

(** [prefix + v] *)
Definition concat (prefix : jsstring) (v : value number) : M jsstring :=
  match to_string v with
  | Some s => ret (prefix ++ s)
  | None => throw TypeError
  end.

Definition console_error_log (label : jsstring) (e : error) : M unit :=
  modify (fun p => set_console_error (console_error p ++ [(label, e)]) p).

(** The second [.then] callback: [data => { ... }]. *)
Definition enviarMensagem_then (data : value number) : M unit :=
  removeChild_lastChild ;;
  sucesso <- get_field s_sucesso data ;;
  if truthy sucesso then
    resposta <- get_field s_resposta data ;;
    adicionarMensagemChat s_assistant resposta
  else
    erro <- get_field s_erro data ;;
    line <- concat cross_ erro ;;
    adicionarMensagemChat s_assistant (VString line).

(** The [.catch] callback: [error => { ... }]. *)
Definition enviarMensagem_catch (e : error) : M unit :=
  removeChild_lastChild ;;
  adicionarMensagemChat s_assistant (VString s_erro_conexao) ;;
  console_error_log s_erro_no_chat e.

(** How the request ends: [fetch] rejects, or it resolves and
    [response.json()] rejects, or both resolve. *)
Inductive outcome : Type :=
| Rejected (reason : error)
| NotJson (reason : error)
| Json (data : value number).

(** The promise chain [fetch(...).then(r => r.json()).then(...).catch(...)]
    run on an outcome: a rejection skips the [.then] callbacks; an exception
    thrown by the second callback reaches the [.catch] callback too. *)
Definition settle (o : outcome) : M unit :=
  match o with
  | Rejected e => enviarMensagem_catch e
  | NotJson e => enviarMensagem_catch e
  | Json data => catch (enviarMensagem_then data) enviarMensagem_catch
  end.

End Handlers.

Arguments outcome : clear implicits.

(** ** Vocabulary for the statements *)

(** [String.prototype.includes]. *)
Fixpoint starts_with (needle hay : jsstring) : bool :=
  match needle, hay with
  | [], _ => true
  | a :: needle', b :: hay' => (a =? b) && starts_with needle' hay'
  | _ :: _, [] => false
  end.

Fixpoint includes (needle hay : jsstring) : bool :=
  starts_with needle hay ||
  match hay with
  | [] => false
  | _ :: hay' => includes needle hay'
  end.

Definition markup (n : node) : jsstring :=
  match node_content n with
  | InnerHTML s => s
  | TextContent s => s
  end.

(** A transcript entry of a role, with given content. *)
Definition entry (id : nat) (role content : jsstring) : node :=
  {| node_id := id;
     classList := [s_message; role];
     node_content := InnerHTML (p_open ++ html content ++ p_close);
     style_top := None;
     style_left := None |}.

(** Every element of the transcript was created before [next_id]. *)
Definition ids_fresh (p : page) : Prop :=
  forall n, In n (chatMessages p) -> (node_id n < next_id p)%nat.

(** No markdown syntax: no backtick, no asterisk, no newline. *)
Definition plain (s : jsstring) : Prop :=
  no_char backtick s /\ no_char asterisk s /\ no_char newline s.

(** Input that is empty or made of white space only. *)
Definition blank (s : jsstring) : Prop :=
  forall ch, In ch s -> is_white_space ch = true.

(** Text that [JSON.stringify] quotes without escaping anything. *)
Definition json_safe (s : jsstring) : Prop :=
  forall ch, In ch s ->
    32 <= ch /\ ch <> quote /\ ch <> backslash /\ (ch < 55296 \/ 57343 < ch).

(** The page after [adicionarMensagemChat(role, conteudo)] with a string. *)
Definition appended (role conteudo : jsstring) (p : page) : page :=
  set_chat_scrolled_to_end true
    (set_chatMessages (chatMessages p ++ [entry (next_id p) role conteudo])
       (set_next_id (S (next_id p)) p)).

Section Outcomes.

Context {number : Type} `{JsNumber number}.

(** The request ended in a rejection, or the [.then] callback ran to its
    end without throwing. *)
Definition completes (o : outcome number) (p : page) : Prop :=
  match o with
  | Rejected _ | NotJson _ => True
  | Json data => fst (enviarMensagem_then data p) = Ok tt
  end.

(** The request failed in transport: [fetch] rejected, or the body was not
    JSON. *)
Definition transport_failure (o : outcome number) (e : error) : Prop :=
  o = Rejected e \/ o = NotJson e.

(** [data.key] when it does not throw. *)
Definition field (key : jsstring) (data : value number) : value number :=
  match data with
  | VObject props =>
      match lookup key props with
      | Some v => v
      | None => VUndefined
      end
  | _ => VUndefined
  end.

(** The text the handlers show for an outcome, when the [.then] callback
    does not throw: the connection-error line for a rejection; resposta for
    a truthy sucesso, when it is a string; the cross mark, a space and erro
    as a string for a falsy sucesso. *)
Definition reply (o : outcome number) : option jsstring :=
  match o with
  | Rejected _ | NotJson _ => Some s_erro_conexao
  | Json VUndefined | Json VNull => None
  | Json data =>
      if truthy (field s_sucesso data) then
        match field s_resposta data with
        | VString r => Some r
        | _ => None
        end
      else
        match to_string (field s_erro data) with
        | Some line => Some (cross_ ++ line)
        | None => None
        end
  end.

End Outcomes.

End Chat.
Import Chat.

(* ================================================================== *)
(** * Tooltips and toast notifications *)
(* ================================================================== *)

Module Overlay.

Definition s_tooltip : jsstring := Eval cbv in str "tooltip".
Definition s_px : jsstring := Eval cbv in str "px".
Definition s_toast_notification : jsstring := Eval cbv in str "toast-notification".
Definition s_toast_notification_toast_ : jsstring :=
  Eval cbv in str "toast-notification toast-".
Definition s_show : jsstring := Eval cbv in str "show".
Definition s_success : jsstring := Eval cbv in str "success".
Definition s_error : jsstring := Eval cbv in str "error".
Definition s_info : jsstring := Eval cbv in str "info".
Definition span_open : jsstring := Eval cbv in str "<span>".
Definition span_close_ : jsstring := Eval cbv in str "</span> ".

(** The first element a predicate selects is taken out of the list. *)
Fixpoint remove_first (f : node -> bool) (l : list node) : list node :=
  match l with
  | [] => []
  | n :: l' => if f n then l' else n :: remove_first f l'
  end.

(** [const e = document.querySelector('.' + cls); if (e) e.remove();] *)
Definition remove_selected (cls : jsstring) : M unit :=
  modify (fun p => set_body_children (remove_first (has_class cls) (body_children p)) p).

(** [document.body.appendChild(n)] *)
Definition body_appendChild (n : node) : M unit :=
  modify (fun p => set_body_children (body_children p ++ [n]) p).

(** A change to the element with a given identity, when it is attached. *)
Definition update_node (id : nat) (f : node -> node) : M unit :=
  modify (fun p => set_body_children
                     (map (fun n => if Nat.eqb (node_id n) id then f n else n)
                          (body_children p)) p).

(** [e.remove()] for the element with a given identity. *)
Definition remove_node (id : nat) : M unit :=
  modify (fun p => set_body_children
                     (remove_first (fun n => Nat.eqb (node_id n) id) (body_children p)) p).

Definition setTimeout (cb : callback) (ms : Z) : M unit :=
  modify (fun p => set_timers (timers p ++ [{| delay := ms; timer_callback := cb |}]) p).

(** ** Tooltips *)

Section Tooltip.

Context {number : Type} `{JsNumber number}.

(** [event.target]: its [data-tooltip] attribute, when present, and the
    rectangle [getBoundingClientRect()] returns. *)
Record target : Type := {
  dataset_tooltip : option jsstring;
  rect_top : number;
  rect_left : number;
  rect_width : number
}.

Definition set_position (top left : jsstring) (n : node) : node :=
  {| node_id := node_id n;
     classList := classList n;
     node_content := node_content n;
     style_top := Some top;
     style_left := Some left |}.

(** [mostrarTooltip(event)] *)
Definition mostrarTooltip (event_target : target) : M unit :=
  match dataset_tooltip event_target with
  | None => ret tt
  | Some [] => ret tt
  | Some texto =>
      tooltip <- createElement ;;
      body_appendChild {| node_id := tooltip;
                          classList := class_tokens s_tooltip;
                          node_content := TextContent texto;
                          style_top := None;
                          style_left := None |} ;;
      let top := number_sub (rect_top event_target) (number_of_Z 35) in
      let left := number_add (rect_left event_target)
                             (number_div (rect_width event_target) (number_of_Z 2)) in
      update_node tooltip (set_position (number_to_string top ++ s_px)
                                        (number_to_string left ++ s_px))
  end.

End Tooltip.

Arguments target : clear implicits.

(** [esconderTooltip()] *)
Definition esconderTooltip : M unit := remove_selected s_tooltip.

(** ** Toast notifications *)

(** The text [String(f)] gives for a built-in function [f], from the
    name of the function; the layout of that text is left to the engine. *)
Class NativeText : Type := { native_function_text : jsstring -> jsstring }.

Definition s_constructor : jsstring := Eval cbv in str "constructor".
Definition s_Object : jsstring := Eval cbv in str "Object".
Definition s___proto__ : jsstring := Eval cbv in str "__proto__".

(** The methods every object inherits from [Object.prototype]. *)
Definition inherited_methods : list jsstring :=
  Eval cbv in
    [str "__defineGetter__"; str "__defineSetter__"; str "hasOwnProperty";
     str "__lookupGetter__"; str "__lookupSetter__"; str "isPrototypeOf";
     str "propertyIsEnumerable"; str "toString"; str "valueOf";
     str "toLocaleString"].

Section Toasts.

Context `{NativeText}.

(** [icones[tipo] || ''] as the template literal shows it: the icon of the
    three kinds; for a [tipo] that names a property every object inherits,
    the text of that property - of the function [Object] for constructor,
    of the method of that name for a method, and of the prototype object
    for __proto__; the empty string for any other [tipo].  The prototype
    of objects is the one the language defines, with no property added. *)
Definition icones (tipo : jsstring) : jsstring :=
  if eqb_string tipo s_success then [9989]
  else if eqb_string tipo s_error then [10060]
  else if eqb_string tipo s_info then [8505; 65039]
  else if eqb_string tipo s_constructor then native_function_text s_Object
  else if existsb (eqb_string tipo) inherited_methods then native_function_text tipo
  else if eqb_string tipo s___proto__ then s_object
  else [].

(** The first two statements of [mostrarNotificacao]: the toast on the
    page, if any, is removed. *)
Definition remover_existente : M unit := remove_selected s_toast_notification.

(** [mostrarNotificacao(mensagem, tipo = 'info')] *)
Definition mostrarNotificacao (mensagem : jsstring) (tipo : option jsstring) : M unit :=
  let tipo := match tipo with Some t => t | None => s_info end in
  remover_existente ;;
  toast <- createElement ;;
  body_appendChild {| node_id := toast;
                      classList := class_tokens (s_toast_notification_toast_ ++ tipo);
                      node_content :=
                        InnerHTML (span_open ++ icones tipo ++ span_close_ ++ mensagem);
                      style_top := None;
                      style_left := None |} ;;
  setTimeout (ToastShow toast) 10 ;;
  setTimeout (ToastHide toast) 4000.

(** The three timer callbacks. *)
Definition run_callback (cb : callback) : M unit :=
  match cb with
  | ToastShow toast => update_node toast (classList_add s_show)
  | ToastHide toast =>
      update_node toast (classList_remove s_show) ;;
      setTimeout (ToastRemove toast) 300
  | ToastRemove toast => remove_node toast
  end.

Fixpoint remove_nth {A} (k : nat) (l : list A) : list A :=
  match l, k with
  | [], _ => []
  | _ :: l', O => l'
  | a :: l', S k' => a :: remove_nth k' l'
  end.

(** What happens on the page: a call of [mostrarNotificacao], or the
    [k]-th pending timer firing.  The timers may fire in any order; the
    orders their delays allow are among them. *)
Inductive event : Type :=
| Call (mensagem : jsstring) (tipo : option jsstring)
| Fire (k : nat).

Definition fire (k : nat) : M unit :=
  l <- gets timers ;;
  match nth_error l k with
  | None => ret tt
  | Some t =>
      modify (set_timers (remove_nth k l)) ;;
      run_callback (timer_callback t)
  end.

Definition step (e : event) (p : page) : page :=
  match e with
  | Call mensagem tipo => exec (mostrarNotificacao mensagem tipo) p
  | Fire k => exec (fire k) p
  end.

(** The states the page goes through during an event, in order: a call
    first removes the old toast and then appends the new one. *)
Definition instants (e : event) (p : page) : list page :=
  match e with
  | Call mensagem tipo => [exec remover_existente p; step e p]
  | Fire k => [step e p]
  end.

(** Every state the page goes through during a sequence of events. *)
Fixpoint trace (es : list event) (p : page) : list page :=
  match es with
  | [] => []
  | e :: es' => instants e p ++ trace es' (step e p)
  end.

End Toasts.

(** The number of elements carrying a class. *)
Definition count_class (cls : jsstring) (p : page) : nat :=
  length (filter (has_class cls) (body_children p)).

End Overlay.
Import Overlay.

(* ================================================================== *)
(** * An instance of the number interface, to run examples *)
(* ================================================================== *)

Module IntNumber.

(** Integers printed in decimal; enough for examples whose numbers are
    integers and whose quotients are exact. *)
#[export] Instance Z_number : JsNumber Z := {|
  number_truthy := fun z => negb (z =? 0);
  number_to_string := fun z => str (NilZero.string_of_int (Z.to_int z));
  number_of_Z := fun z => z;
  number_sub := Z.sub;
  number_add := Z.add;
  number_div := Z.div
|}.

(** The text of a built-in function on one line, as several engines
    print it. *)
#[export] Instance one_line_text : NativeText := {|
  native_function_text := fun name =>
    str "function " ++ name ++ str "() { [native code] }"
|}.

(** A freshly loaded page: empty input, empty transcript, nothing
    appended to the body, no timer, no request. *)
Definition empty_page : page :=
  {| chatInput_value := [];
     chatMessages := [];
     chat_scrolled_to_end := false;
     body_children := [];
     timers := [];
     fetches := [];
     console_error := [];
     next_id := 0 |}.

End IntNumber.
Import IntNumber.

(* ================================================================== *)
(** * Sample pages and responses *)
(* ================================================================== *)

Module Samples.

(** The user typed hi between two spaces. *)
Definition page_hi : page := set_chatInput_value (str " hi ") empty_page.

(** The user typed a bold word. *)
Definition page_bold : page := set_chatInput_value (str "**a**") empty_page.

(** The user typed a space, a tab and a no-break space. *)
Definition page_blank : page := set_chatInput_value [32; 9; 160] empty_page.

(** The page after hi was sent. *)
Definition page_sent : page := exec (@enviarMensagem Z) page_hi.

(** A reply with the field names of the script. *)
Definition data_sucesso : value Z :=
  VObject [(s_sucesso, VBool true); (s_resposta, VString (str "**oi**"))].

(** A reply with the English field names. *)
Definition data_success : value Z :=
  VObject [(str "success", VBool true); (str "response", VString (str "hi"))].

(** A failure reply whose error text has markdown syntax. *)
Definition data_erro : value Z :=
  VObject [(s_sucesso, VBool false); (s_erro, VString (str "**x**"))].

Definition failed_to_fetch : error := FetchFailure (str "Failed to fetch").

(** An element with a tooltip text, 20 pixels wide at (10, 100). *)
Definition hovered : target Z :=
  {| dataset_tooltip := Some (str "tip");
     rect_top := 100; rect_left := 10; rect_width := 20 |}.

(** Two notifications, with timers firing between and after them. *)
Definition two_toasts : list event :=
  [Call (str "saved") None; Fire 0; Call (str "failed") (Some s_error);
   Fire 0; Fire 1; Fire 0; Fire 0; Fire 0].

End Samples.
Import Samples.

(* ================================================================== *)
(** * Readings of the specification that the script does not satisfy *)
(* ================================================================== *)

Module Stated.

(** Every span between double asterisks becomes strong emphasis, whatever
    it contains, the later newline rule acting on the span. *)
Definition every_bold_span_is_strong : Prop :=
  forall x, no_char asterisk x -> no_char backtick x ->
    html (asterisk :: asterisk :: x ++ [asterisk; asterisk])
    = strong_open ++ flat_map newline_to_br x ++ strong_close.

(** Every span between single backticks becomes a code span. *)
Definition every_backtick_span_is_code : Prop :=
  forall x, no_char asterisk x -> no_char backtick x ->
    html (backtick :: x ++ [backtick])
    = code_open ++ flat_map newline_to_br x ++ code_close.

(** A hover followed by a leave leaves no tooltip, whatever was on the page
    when the pointer entered. *)
Definition hover_and_leave_leaves_no_tooltip : Prop :=
  forall (event_target : target Z) (p : page),
    count_class s_tooltip
      (exec esconderTooltip (exec (mostrarTooltip event_target) p)) = 0%nat.

End Stated.
Import Stated.

(* ================================================================== *)
(** * Opening and closing the chat *)
(* ================================================================== *)

Module Toggle.

Definition s_active : jsstring := Eval cbv in str "active".
Definition s_none : jsstring := Eval cbv in str "none".
Definition s_flex : jsstring := Eval cbv in str "flex".

(** What [toggleChat] reads and writes: the element with id chatContainer,
    the inline [display] of the element of class chat-toggle (when one was
    assigned), and whether [focus()] has put the focus on the chat input. *)
Record widget : Type := {
  chatContainer : node;
  chat_toggle_display : option jsstring;
  chatInput_focused : bool
}.

(** [n.classList.toggle(cls)] *)
Definition classList_toggle (cls : jsstring) (n : node) : node :=
  if has_class cls n then classList_remove cls n else classList_add cls n.

(** [toggleChat()] *)
Definition toggleChat (w : widget) : widget :=
  let container := classList_toggle s_active (chatContainer w) in
  if has_class s_active container
  then {| chatContainer := container;
          chat_toggle_display := Some s_none;
          chatInput_focused := true |}
  else {| chatContainer := container;
          chat_toggle_display := Some s_flex;
          chatInput_focused := chatInput_focused w |}.

Definition is_open (w : widget) : bool := has_class s_active (chatContainer w).

End Toggle.
Import Toggle.

(* ================================================================== *)
(** * The entrance animation of the cards *)
(* ================================================================== *)

Module Cards.

Definition s_stat_card : jsstring := Eval cbv in str "stat-card".
Definition s_vendor_card : jsstring := Eval cbv in str "vendor-card".
Definition s_card : jsstring := Eval cbv in str "card".
Definition s_0 : jsstring := Eval cbv in str "0".
Definition s_1 : jsstring := Eval cbv in str "1".
Definition s_translateY_20px : jsstring := Eval cbv in str "translateY(20px)".
Definition s_translateY_0 : jsstring := Eval cbv in str "translateY(0)".
Definition s_all_04s_ease : jsstring := Eval cbv in str "all 0.4s ease".

(** An element of the document with the three inline style properties
    the animation assigns. *)
Record styled : Type := {
  styled_classes : list jsstring;
  opacity : option jsstring;
  transform : option jsstring;
  transition : option jsstring
}.

(** A timer of the animation: its delay and the element its callback
    closes over, given by its position in the document. *)
Record reveal_timer : Type := { reveal_delay : Z; reveal_target : nat }.

Record stage : Type := {
  elements : list styled;
  reveal_timers : list reveal_timer
}.

(** The selector ['.stat-card, .vendor-card, .card']. *)
Definition is_card (e : styled) : bool :=
  existsb (eqb_string s_stat_card) (styled_classes e)
  || existsb (eqb_string s_vendor_card) (styled_classes e)
  || existsb (eqb_string s_card) (styled_classes e).

(** [document.querySelectorAll(...)]: the matching elements, in document
    order; [pos] is the position of the head of [els]. *)
Fixpoint querySelectorAll (els : list styled) (pos : nat) : list nat :=
  match els with
  | [] => []
  | e :: els' =>
      if is_card e then pos :: querySelectorAll els' (S pos)
      else querySelectorAll els' (S pos)
  end.

Fixpoint update_at (pos : nat) (f : styled -> styled) (els : list styled)
  : list styled :=
  match els, pos with
  | [], _ => []
  | e :: els', O => f e :: els'
  | e :: els', S pos' => e :: update_at pos' f els'
  end.

(** The three assignments at the start of the [forEach] callback. *)
Definition hide (e : styled) : styled :=
  {| styled_classes := styled_classes e;
     opacity := Some s_0;
     transform := Some s_translateY_20px;
     transition := Some s_all_04s_ease |}.

(** The two assignments of the timer callback. *)
Definition reveal (e : styled) : styled :=
  {| styled_classes := styled_classes e;
     opacity := Some s_1;
     transform := Some s_translateY_0;
     transition := transition e |}.

(** [cards.forEach((card, index) => { ... })], from [index] on. *)
Fixpoint forEach (cards : list nat) (index : nat) (st : stage) : stage :=
  match cards with
  | [] => st
  | card :: cards' =>
      forEach cards' (S index)
        {| elements := update_at card hide (elements st);
           reveal_timers :=
             reveal_timers st ++ [{| reveal_delay := Z.of_nat index * 100;
                                     reveal_target := card |}] |}
  end.

(** [animarCardsEntrada()] *)
Definition animarCardsEntrada (st : stage) : stage :=
  forEach (querySelectorAll (elements st) 0) 0 st.

(** The [k]-th pending timer fires. *)
Definition fire_reveal (k : nat) (st : stage) : stage :=
  match nth_error (reveal_timers st) k with
  | None => st
  | Some t =>
      {| elements := update_at (reveal_target t) reveal (elements st);
         reveal_timers := remove_nth k (reveal_timers st) |}
  end.

Fixpoint fire_all (ks : list nat) (st : stage) : stage :=
  match ks with
  | [] => st
  | k :: ks' => fire_all ks' (fire_reveal k st)
  end.

Definition hidden (e : styled) : Prop :=
  opacity e = Some s_0 /\ transform e = Some s_translateY_20px
  /\ transition e = Some s_all_04s_ease.

Definition visible (e : styled) : Prop :=
  opacity e = Some s_1 /\ transform e = Some s_translateY_0
  /\ transition e = Some s_all_04s_ease.

End Cards.
Import Cards.

(* ================================================================== *)
(** * Copying to the clipboard *)
(* ================================================================== *)

Module Clipboard.

(** The success message; its 16th and 32nd letters are U+00E1 and U+00EA. *)
Definition s_copiado : jsstring :=
  Eval cbv in str "Copiado para a " ++ 225 :: str "rea de transfer" ++ 234 :: str "ncia!".
Definition s_erro_ao_copiar_ : jsstring := Eval cbv in str "Erro ao copiar:".
Definition s_erro_ao_copiar : jsstring := Eval cbv in str "Erro ao copiar".

(** How [navigator.clipboard.writeText(texto)] ends. *)
Inductive write_outcome : Type :=
| Written
| Refused (err : error).

Section Callbacks.

Context `{NativeText}.

(** The [.then] callback of [copiarParaClipboard]. *)
Definition copiarParaClipboard_then : M unit :=
  mostrarNotificacao s_copiado (Some s_success).

(** The [.catch] callback of [copiarParaClipboard]. *)
Definition copiarParaClipboard_catch (err : error) : M unit :=
  console_error_log s_erro_ao_copiar_ err ;;
  mostrarNotificacao s_erro_ao_copiar (Some s_error).

(** The promise chain of [copiarParaClipboard] run on an outcome. *)
Definition copiarParaClipboard_settle (o : write_outcome) : M unit :=
  match o with
  | Written => catch copiarParaClipboard_then copiarParaClipboard_catch
  | Refused err => copiarParaClipboard_catch err
  end.

End Callbacks.

End Clipboard.
Import Clipboard.

(* ================================================================== *)
(** * Debounce *)
(* ================================================================== *)

Module Debounce.

Section Wrapped.

(** The argument list of a call. *)
Variable A : Type.

(** An active timer made by [setTimeout(later, wait)]: the arguments are
    those [later] closes over. *)
Record entry : Type := { timer_id : nat; due : Z; later_args : A }.

(** The clock in milliseconds, the active timers in order of creation, the
    variable [timeout] of the closure ([None] for [undefined]) and the calls
    of [func] made so far, oldest first. *)
Record state : Type := {
  now : Z;
  pending : list entry;
  next_timer_id : nat;
  timeout : option nat;
  calls : list A
}.

(** [clearTimeout(id)] *)
Definition clearTimeout (id : option nat) (st : state) : state :=
  match id with
  | None => st
  | Some i =>
      {| now := now st;
         pending := filter (fun e => negb (Nat.eqb (timer_id e) i)) (pending st);
         next_timer_id := next_timer_id st;
         timeout := timeout st;
         calls := calls st |}
  end.

(** The delay [setTimeout] takes is a 32-bit signed integer: the number
    given is cut to its integer part, which [wait] stands for here, and
    wrapped into the range from -2^31 to 2^31 - 1. *)
Definition to_long (z : Z) : Z :=
  (z + 2147483648) mod 4294967296 - 2147483648.

(** The delay of the timer [setTimeout(later, wait)] makes: the wrapped
    [wait], and 0 when that is negative. *)
Definition timer_delay (wait : Z) : Z := Z.max 0 (to_long wait).

(** [executedFunction(...args)]: [clearTimeout(timeout)] and then
    [timeout = setTimeout(later, wait)].  The wrapper is called from event
    handlers, not from inside a chain of nested timers, so the delay is not
    raised to the minimum such chains get. *)
Definition executedFunction (wait : Z) (args : A) (st : state) : state :=
  let st1 := clearTimeout (timeout st) st in
  {| now := now st1;
     pending := pending st1 ++ [{| timer_id := next_timer_id st1;
                                   due := now st1 + timer_delay wait;
                                   later_args := args |}];
     next_timer_id := S (next_timer_id st1);
     timeout := Some (next_timer_id st1);
     calls := calls st1 |}.

(** [later()]: [clearTimeout(timeout)] and then [func(...args)]. *)
Definition later (args : A) (st : state) : state :=
  let st1 := clearTimeout (timeout st) st in
  {| now := now st1;
     pending := pending st1;
     next_timer_id := next_timer_id st1;
     timeout := timeout st1;
     calls := calls st1 ++ [args] |}.

(** The timer that fires next: the smallest due time, the oldest first. *)
Fixpoint earliest (l : list entry) : option entry :=
  match l with
  | [] => None
  | e :: l' =>
      match earliest l' with
      | None => Some e
      | Some e' => if due e <=? due e' then Some e else Some e'
      end
  end.

(** A timer fires: it is no longer active and its callback runs. *)
Definition fire_entry (e : entry) (st : state) : state :=
  later (later_args e)
    {| now := Z.max (now st) (due e);
       pending := filter (fun e' => negb (Nat.eqb (timer_id e') (timer_id e)))
                         (pending st);
       next_timer_id := next_timer_id st;
       timeout := timeout st;
       calls := calls st |}.

(** The timers due by time [t] fire, in order. *)
Fixpoint run_due (fuel : nat) (t : Z) (st : state) : state :=
  match fuel with
  | O => st
  | S fuel' =>
      match earliest (pending st) with
      | None => st
      | Some e => if due e <=? t then run_due fuel' t (fire_entry e st) else st
      end
  end.

(** Control is back with the event loop and [dt] milliseconds pass: the
    timers due by then fire. *)
Definition elapse (dt : Z) (st : state) : state :=
  let t := now st + dt in
  let st1 := run_due (length (pending st)) t st in
  {| now := t;
     pending := pending st1;
     next_timer_id := next_timer_id st1;
     timeout := timeout st1;
     calls := calls st1 |}.

Inductive action : Type :=
| Elapse (dt : Z)
| Invoke (args : A).

Definition act (wait : Z) (a : action) (st : state) : state :=
  match a with
  | Elapse dt => elapse dt st
  | Invoke args => executedFunction wait args st
  end.

Fixpoint run (wait : Z) (l : list action) (st : state) : state :=
  match l with
  | [] => st
  | a :: l' => run wait l' (act wait a st)
  end.

(** Calls of the wrapper, each after a gap. *)
Fixpoint burst (l : list (Z * A)) : list action :=
  match l with
  | [] => []
  | (dt, args) :: l' => Elapse dt :: Invoke args :: burst l'
  end.

(** Calls of the wrapper, each followed by a pause. *)
Fixpoint spaced (l : list (A * Z)) : list action :=
  match l with
  | [] => []
  | (args, dt) :: l' => Invoke args :: Elapse dt :: spaced l'
  end.

Fixpoint invocations (l : list action) : nat :=
  match l with
  | [] => O
  | Invoke _ :: l' => S (invocations l')
  | Elapse _ :: l' => invocations l'
  end.

End Wrapped.

Arguments Elapse {A} dt.
Arguments Invoke {A} args.

End Debounce.

(* ================================================================== *)
(** * Vocabulary for the statements on toasts and tooltips *)
(* ================================================================== *)

Module OverlayWords.

(** Every element on the page was created before [next_id]. *)
Definition body_fresh (p : page) : Prop :=
  forall n, In n (body_children p) -> (node_id n < next_id p)%nat.

Section ToastNode.

Context `{NativeText}.

(** The element [mostrarNotificacao] makes, before any timer fires. *)
Definition toast_node (id : nat) (mensagem tipo : jsstring) : node :=
  {| node_id := id;
     classList := class_tokens (s_toast_notification_toast_ ++ tipo);
     node_content := InnerHTML (span_open ++ icones tipo ++ span_close_ ++ mensagem);
     style_top := None;
     style_left := None |}.

End ToastNode.

Definition s_toast_success : jsstring := Eval cbv in str "toast-success".
Definition s_toast_error : jsstring := Eval cbv in str "toast-error".

End OverlayWords.
Import OverlayWords.

(* ================================================================== *)
(** * Vocabulary for the statements on the card animation *)
(* ================================================================== *)

Module CardWords.

(** What holds of a stage while the timers of the animation fire, [orig]
    being the elements before the animation: the elements that are not
    cards are those of [orig]; a card is hidden exactly while a timer for it
    is pending, and visible once none is; no two pending timers are for the
    same card; and every pending timer is for a card. *)
Definition animating (orig : list styled) (st : stage) : Prop :=
  length (elements st) = length orig
  /\ (forall pos e, nth_error (elements st) pos = Some e -> is_card e = false ->
        nth_error orig pos = Some e)
  /\ (forall pos e, nth_error (elements st) pos = Some e -> is_card e = true ->
        (hidden e /\ In pos (map reveal_target (reveal_timers st)))
        \/ (visible e /\ ~ In pos (map reveal_target (reveal_timers st))))
  /\ NoDup (map reveal_target (reveal_timers st))
  /\ (forall t, In t (reveal_timers st) ->
        exists e, nth_error (elements st) (reveal_target t) = Some e
                  /\ is_card e = true).

End CardWords.
Import CardWords.

(* ================================================================== *)
(** * More sample pages *)
(* ================================================================== *)

Module MoreSamples.

(** Two replies, to be delivered while both requests are in flight. *)
Definition data_primeira : value Z :=
  VObject [(s_sucesso, VBool true); (s_resposta, VString (str "one"))].
Definition data_segunda : value Z :=
  VObject [(s_sucesso, VBool true); (s_resposta, VString (str "two"))].

(** A page with one toast already on it. *)
Definition page_toast : page := step (Call (str "old") None) empty_page.

(** A second element with a tooltip text. *)
Definition hovered_too : target Z :=
  {| dataset_tooltip := Some (str "top");
     rect_top := 40; rect_left := 0; rect_width := 8 |}.

(** A closed chat: the container has one class, the launcher no inline
    style, the input no focus. *)
Definition closed_chat : widget :=
  {| chatContainer := {| node_id := 0;
                         classList := [str "chat-container"];
                         node_content := InnerHTML [];
                         style_top := None;
                         style_left := None |};
     chat_toggle_display := None;
     chatInput_focused := false |}.

Definition plain_element (classes : list jsstring) : styled :=
  {| styled_classes := classes; opacity := None; transform := None;
     transition := None |}.

(** A heading between two cards. *)
Definition three_elements : stage :=
  {| elements := [plain_element [s_stat_card]; plain_element [str "title"];
                  plain_element [s_card; str "wide"]];
     reveal_timers := [] |}.

(** A wrapper that was never called. *)
Definition fresh_wrapper : Debounce.state jsstring :=
  {| Debounce.now := 0; Debounce.pending := []; Debounce.next_timer_id := 0;
     Debounce.timeout := None; Debounce.calls := [] |}.

End MoreSamples.
Import MoreSamples.

(* ================================================================== *)
(** * Facts about the matcher and the global replace *)
(* ================================================================== *)

Lemma eqb_string_true (a b : jsstring) : eqb_string a b = true <-> a = b.
Proof.
  unfold eqb_string. destruct (list_eq_dec Z.eq_dec a b); split; congruence.
Qed.

Section ReplaceFacts.

Variable r : regex.
Variable tpl : list titem.

Lemma replace_from_skip (a rest : jsstring) :
  replace_from r tpl (a ++ rest) (length a) = replace_from r tpl rest O.
Proof.
  induction a as [|ch a IH]; simpl; [reflexivity | exact IH].
Qed.

(** A non-empty match at the head is replaced and the scan resumes after it. *)
Lemma replace_all_match (ch : Z) (a rest : jsstring) (c : caps) :
  exec_at r (ch :: a ++ rest) = Some (rest, c) ->
  replace_all r tpl (ch :: a ++ rest) = subst tpl c ++ replace_all r tpl rest.
Proof.
  intros H. unfold replace_all. cbn [replace_from]. rewrite H.
  replace (length (ch :: a ++ rest) - length rest)%nat with (S (length a)).
  - now rewrite replace_from_skip.
  - cbn [length]. rewrite length_app. lia.
Qed.

(** No match at the head: the character is copied. *)
Lemma replace_all_nomatch (ch : Z) (s : jsstring) :
  exec_at r (ch :: s) = None ->
  replace_all r tpl (ch :: s) = ch :: replace_all r tpl s.
Proof.
  intros H. unfold replace_all. cbn [replace_from]. now rewrite H.
Qed.

(** A prefix none of whose characters can start a match is copied. *)
Lemma replace_all_prefix (pre rest : jsstring) :
  (forall ch s', In ch pre -> exec_at r (ch :: s') = None) ->
  replace_all r tpl (pre ++ rest) = pre ++ replace_all r tpl rest.
Proof.
  induction pre as [|ch pre IH]; intros H; [reflexivity|].
  cbn [app]. rewrite replace_all_nomatch by (apply H; now left).
  f_equal. apply IH. intros ch' s' Hin. apply H. now right.
Qed.

Lemma replace_all_id (s : jsstring) :
  exec_at r [] = None ->
  (forall ch s', In ch s -> exec_at r (ch :: s') = None) ->
  replace_all r tpl s = s.
Proof.
  intros Hnil H. rewrite <- (app_nil_r s) at 1.
  rewrite replace_all_prefix by exact H.
  unfold replace_all. cbn [replace_from]. rewrite Hnil. apply app_nil_r.
Qed.

End ReplaceFacts.

Section StarFacts.

Variable k : cset.
Variable K : cont.

(** The lazy star walks over a run of characters on which the rest of the
    pattern cannot start. *)
Lemma star_lazy_skip (x rest : jsstring) (c : caps) :
  (forall ch, In ch x -> cset_mem k ch = true) ->
  (forall ch s' c', In ch x -> K (ch :: s') c' = None) ->
  star_lazy k K (x ++ rest) c = star_lazy k K rest c.
Proof.
  induction x as [|ch x IH]; intros Hk HK; [reflexivity|].
  cbn [app star_lazy]. rewrite HK by now left. rewrite Hk by now left.
  apply IH; intros; [apply Hk | apply HK]; now right.
Qed.

Lemma star_lazy_stop (s : jsstring) (c : caps) (res : jsstring * caps) :
  K s c = Some res -> star_lazy k K s c = Some res.
Proof.
  intros H. destruct s; cbn [star_lazy]; now rewrite H.
Qed.

(** The greedy star keeps a whole run when the rest of the pattern
    succeeds after it. *)
Lemma star_greedy_run (x rest : jsstring) (c : caps) (res : jsstring * caps) :
  (forall ch, In ch x -> cset_mem k ch = true) ->
  star_greedy k K rest c = Some res ->
  star_greedy k K (x ++ rest) c = Some res.
Proof.
  induction x as [|ch x IH]; intros Hk H; [exact H|].
  cbn [app star_greedy]. rewrite Hk by now left.
  rewrite IH; [reflexivity | | exact H].
  intros; apply Hk; now right.
Qed.

End StarFacts.

Lemma firstn_length_diff (x rest : jsstring) :
  firstn (length (x ++ rest) - length rest) (x ++ rest) = x.
Proof.
  rewrite length_app.
  replace (length x + length rest - length rest)%nat with (length x) by lia.
  rewrite firstn_app, firstn_all, Nat.sub_diag. cbn. apply app_nil_r.
Qed.

(* ================================================================== *)
(** * The four substitutions, one by one *)
(* ================================================================== *)

Section Rules.

Lemma single_line_dot (x : jsstring) :
  single_line x -> forall ch, In ch x -> cset_mem Dot ch = true.
Proof. intros H ch Hin. cbn. now rewrite (H ch Hin). Qed.

(** ** Newline *)

Lemma replace_newline_flat_map (s : jsstring) :
  replace_newline s = flat_map newline_to_br s.
Proof.
  unfold replace_newline. induction s as [|ch s IH]; [reflexivity|].
  cbn [flat_map]. unfold newline_to_br at 1.
  destruct (ch =? newline) eqn:E.
  - pose proof (@replace_all_match re_newline tpl_newline ch [] s []) as M.
    cbn [app] in M. rewrite M.
    + cbn [subst tpl_newline]. rewrite IH. now rewrite app_nil_r.
    + unfold exec_at, re_newline. cbn [m cset_mem]. now rewrite E.
  - rewrite replace_all_nomatch.
    + now rewrite IH.
    + unfold exec_at, re_newline. cbn [m cset_mem]. now rewrite E.
Qed.

Lemma flat_map_newline_free (s : jsstring) :
  ~ In newline (flat_map newline_to_br s).
Proof.
  induction s as [|ch s IH]; cbn [flat_map]; [tauto|].
  rewrite in_app_iff. intros [H|H]; [|tauto].
  unfold newline_to_br in H. destruct (ch =? newline) eqn:E.
  - cbv in H. intuition discriminate.
  - destruct H as [H|[]]. apply Z.eqb_neq in E. congruence.
Qed.

Lemma flat_map_newline_id (s : jsstring) :
  no_char newline s -> flat_map newline_to_br s = s.
Proof.
  induction s as [|ch s IH]; intros H; [reflexivity|].
  cbn [flat_map]. unfold newline_to_br at 1.
  rewrite (proj2 (Z.eqb_neq ch newline)) by (apply H; now left).
  cbn. f_equal. apply IH. intros c Hc. apply H. now right.
Qed.

(** ** Bold *)

Lemma exec_bold_head (ch : Z) (s : jsstring) :
  ch <> asterisk -> exec_at re_bold (ch :: s) = None.
Proof.
  intros H. unfold exec_at, re_bold. cbn [m cset_mem].
  now rewrite (proj2 (Z.eqb_neq ch asterisk)).
Qed.

Lemma exec_bold_nil : exec_at re_bold [] = None.
Proof. reflexivity. Qed.

Lemma exec_bold_span (x post : jsstring) :
  no_char asterisk x -> single_line x ->
  exec_at re_bold (asterisk :: asterisk :: x ++ asterisk :: asterisk :: post)
  = Some (post, [(1%nat, x)]).
Proof.
  intros Hx Hl. unfold exec_at, re_bold. cbn [m cset_mem].
  rewrite !Z.eqb_refl.
  rewrite star_lazy_skip.
  - apply star_lazy_stop. rewrite !Z.eqb_refl. now rewrite firstn_length_diff.
  - now apply single_line_dot.
  - intros ch s' c' Hin. now rewrite (proj2 (Z.eqb_neq ch asterisk)) by now apply Hx.
Qed.

Lemma replace_bold_span (pre x post : jsstring) :
  no_char asterisk pre -> no_char asterisk x -> single_line x ->
  replace_bold (pre ++ asterisk :: asterisk :: x ++ asterisk :: asterisk :: post)
  = pre ++ strong_open ++ x ++ strong_close ++ replace_bold post.
Proof.
  intros Hpre Hx Hl. unfold replace_bold.
  rewrite replace_all_prefix by (intros; apply exec_bold_head; now apply Hpre).
  f_equal.
  pose proof (@replace_all_match re_bold tpl_bold asterisk
                (asterisk :: x ++ [asterisk; asterisk]) post [(1%nat, x)]) as M.
  cbn [app] in M. rewrite <- app_assoc in M. cbn [app] in M.
  rewrite M by now apply exec_bold_span.
  cbn [subst tpl_bold group Nat.eqb]. now rewrite <- !app_assoc.
Qed.

Lemma replace_bold_id (s : jsstring) : no_char asterisk s -> replace_bold s = s.
Proof.
  intros H. apply replace_all_id; [apply exec_bold_nil|].
  intros; apply exec_bold_head; now apply H.
Qed.

(** ** Inline code *)

Lemma exec_code_head (ch : Z) (s : jsstring) :
  ch <> backtick -> exec_at re_code (ch :: s) = None.
Proof.
  intros H. unfold exec_at, re_code. cbn [m cset_mem].
  now rewrite (proj2 (Z.eqb_neq ch backtick)).
Qed.

Lemma exec_code_nil : exec_at re_code [] = None.
Proof. reflexivity. Qed.

Lemma exec_code_span (x post : jsstring) :
  no_char backtick x -> single_line x ->
  exec_at re_code (backtick :: x ++ backtick :: post) = Some (post, [(1%nat, x)]).
Proof.
  intros Hx Hl. unfold exec_at, re_code. cbn [m cset_mem].
  rewrite !Z.eqb_refl.
  rewrite star_lazy_skip.
  - apply star_lazy_stop. rewrite !Z.eqb_refl. now rewrite firstn_length_diff.
  - now apply single_line_dot.
  - intros ch s' c' Hin. now rewrite (proj2 (Z.eqb_neq ch backtick)) by now apply Hx.
Qed.

Lemma replace_code_span (pre x post : jsstring) :
  no_char backtick pre -> no_char backtick x -> single_line x ->
  replace_code (pre ++ backtick :: x ++ backtick :: post)
  = pre ++ code_open ++ x ++ code_close ++ replace_code post.
Proof.
  intros Hpre Hx Hl. unfold replace_code.
  rewrite replace_all_prefix by (intros; apply exec_code_head; now apply Hpre).
  f_equal.
  pose proof (@replace_all_match re_code tpl_code backtick
                (x ++ [backtick]) post [(1%nat, x)]) as M.
  rewrite <- app_assoc in M. cbn [app] in M.
  rewrite M by now apply exec_code_span.
  cbn [subst tpl_code group Nat.eqb]. now rewrite <- !app_assoc.
Qed.

Lemma replace_code_id (s : jsstring) : no_char backtick s -> replace_code s = s.
Proof.
  intros H. apply replace_all_id; [apply exec_code_nil|].
  intros; apply exec_code_head; now apply H.
Qed.

(** ** Fenced blocks *)

Lemma exec_fence_head (ch : Z) (s : jsstring) :
  ch <> backtick -> exec_at re_fence (ch :: s) = None.
Proof.
  intros H. unfold exec_at, re_fence. cbn [m cset_mem].
  now rewrite (proj2 (Z.eqb_neq ch backtick)).
Qed.

Lemma exec_fence_nil : exec_at re_fence [] = None.
Proof. reflexivity. Qed.

Lemma exec_fence_single (s : jsstring) :
  match s with ch :: _ => ch <> backtick | [] => True end ->
  exec_at re_fence (backtick :: s) = None.
Proof.
  destruct s as [|ch s]; intros H; [reflexivity|].
  unfold exec_at, re_fence. cbn [m cset_mem].
  now rewrite Z.eqb_refl, (proj2 (Z.eqb_neq ch backtick)).
Qed.

Lemma any_char (ch : Z) : cset_mem (Union Space NonSpace) ch = true.
Proof. cbn. apply orb_negb_r. Qed.

(** The body of a fenced block: up to the first closing fence. *)
Lemma fence_body (K : cont) (body post : jsstring) (c : caps) (res : jsstring * caps) :
  no_char backtick body ->
  K post ((2%nat, body) :: c) = Some res ->
  m (Cat (Grp 2 (Star false (Union Space NonSpace)))
         (Cat (Sym (Lit backtick)) (Cat (Sym (Lit backtick)) (Sym (Lit backtick)))))
    K (body ++ fence ++ post) c
  = Some res.
Proof.
  intros Hb HK. cbn [m cset_mem].
  rewrite star_lazy_skip.
  - apply star_lazy_stop. unfold fence. cbn [app]. rewrite !Z.eqb_refl.
    now rewrite firstn_length_diff.
  - intros; apply any_char.
  - intros ch s' c' Hin. now rewrite (proj2 (Z.eqb_neq ch backtick)) by now apply Hb.
Qed.

Lemma m_sym (k : cset) (r : regex) (K : cont) (ch : Z) (s : jsstring) (c : caps) :
  cset_mem k ch = true -> m (Cat (Sym k) r) K (ch :: s) c = m r K s c.
Proof. intros H. cbn [m]. now rewrite H. Qed.

Lemma m_opt_take (k : cset) (r : regex) (K : cont) (ch : Z) (s : jsstring)
      (c : caps) (res : jsstring * caps) :
  cset_mem k ch = true -> m r K s c = Some res ->
  m (Cat (Opt k) r) K (ch :: s) c = Some res.
Proof. intros H1 H2. cbn [m]. now rewrite H1, H2. Qed.

Lemma m_opt_skip (k : cset) (r : regex) (K : cont) (ch : Z) (s : jsstring) (c : caps) :
  cset_mem k ch = false -> m (Cat (Opt k) r) K (ch :: s) c = m r K (ch :: s) c.
Proof. intros H. cbn [m]. now rewrite H. Qed.

Lemma m_greedy_group (n : nat) (k : cset) (r : regex) (K : cont)
      (x rest : jsstring) (c : caps) (res : jsstring * caps) :
  (forall ch, In ch x -> cset_mem k ch = true) ->
  match rest with ch :: _ => cset_mem k ch = false | [] => True end ->
  m r K rest ((n, x) :: c) = Some res ->
  m (Cat (Grp n (Star true k)) r) K (x ++ rest) c = Some res.
Proof.
  intros Hx Hrest H. cbn [m].
  apply star_greedy_run; [exact Hx|].
  destruct rest as [|ch rest]; cbn [star_greedy].
  - now rewrite firstn_length_diff.
  - rewrite Hrest. now rewrite firstn_length_diff.
Qed.

(** A fenced block with a language tag and a newline after it. *)
Lemma exec_fence_newline (lang body post : jsstring) :
  words lang -> no_char backtick body ->
  exec_at re_fence (fence ++ lang ++ newline :: body ++ fence ++ post)
  = Some (post, [(2%nat, body); (1%nat, lang)]).
Proof.
  intros Hw Hb. unfold exec_at, re_fence, fence at 1. cbn [app].
  rewrite !m_sym by apply Z.eqb_refl.
  apply m_greedy_group; [exact Hw | reflexivity |].
  apply m_opt_take; [reflexivity|].
  now apply fence_body.
Qed.

(** A fenced block whose opening fence is directly followed by the closing
    one, after word characters only: they are the language tag. *)
Lemma exec_fence_tag_only (lang post : jsstring) :
  words lang ->
  exec_at re_fence (fence ++ lang ++ fence ++ post)
  = Some (post, [(2%nat, []); (1%nat, lang)]).
Proof.
  intros Hw. unfold exec_at, re_fence, fence at 1. cbn [app].
  rewrite !m_sym by apply Z.eqb_refl.
  apply m_greedy_group; [exact Hw | reflexivity |].
  unfold fence at 1. cbn [app]. rewrite m_opt_skip by reflexivity.
  apply (@fence_body _ [] post); [intros ch [] | reflexivity].
Qed.

Lemma replace_fence_newline (lang body : jsstring) :
  words lang -> no_char backtick body ->
  replace_fence (fence ++ lang ++ newline :: body ++ fence)
  = pre_open ++ body ++ pre_close.
Proof.
  intros Hw Hb. unfold replace_fence.
  pose proof (@replace_all_match re_fence tpl_fence backtick
    (backtick :: backtick :: lang ++ newline :: body ++ fence) []
    [(2%nat, body); (1%nat, lang)]) as M.
  rewrite app_nil_r in M. unfold fence at 1. cbn [app]. rewrite M.
  - cbn [subst tpl_fence group Nat.eqb]. unfold replace_all. cbn [replace_from].
    rewrite exec_fence_nil. now rewrite !app_nil_r.
  - pose proof (@exec_fence_newline lang body [] Hw Hb) as E.
    rewrite app_nil_r in E. exact E.
Qed.

Lemma replace_fence_tag_only (lang : jsstring) :
  words lang ->
  replace_fence (fence ++ lang ++ fence) = pre_open ++ pre_close.
Proof.
  intros Hw. unfold replace_fence.
  pose proof (@replace_all_match re_fence tpl_fence backtick
    (backtick :: backtick :: lang ++ fence) []
    [(2%nat, []); (1%nat, lang)]) as M.
  rewrite app_nil_r in M. unfold fence at 1. cbn [app]. rewrite M.
  - reflexivity.
  - pose proof (@exec_fence_tag_only lang [] Hw) as E.
    rewrite app_nil_r in E. exact E.
Qed.

Lemma replace_fence_id (s : jsstring) : no_char backtick s -> replace_fence s = s.
Proof.
  intros H. apply replace_all_id; [apply exec_fence_nil|].
  intros; apply exec_fence_head; now apply H.
Qed.

(** A single-backtick span is not a fenced block. *)
Lemma replace_fence_code_span (x : jsstring) :
  no_char backtick x ->
  replace_fence (backtick :: x ++ [backtick]) = backtick :: x ++ [backtick].
Proof.
  intros Hx. unfold replace_fence.
  destruct x as [|ch x]; [reflexivity|].
  rewrite replace_all_nomatch.
  - f_equal. rewrite replace_all_prefix
      by (intros; apply exec_fence_head; now apply Hx).
    f_equal.
  - apply exec_fence_single. cbn. apply Hx. now left.
Qed.

End Rules.

(* ================================================================== *)
(** * Bold and inline code, span by span *)
(* ================================================================== *)

Section Spans.

Lemma strip_prefix_app (d post : jsstring) : strip_prefix d (d ++ post) = Some post.
Proof.
  induction d as [|a d IH]; [reflexivity|].
  cbn [app strip_prefix]. now rewrite Z.eqb_refl.
Qed.

Lemma strip_prefix_inv (d s post : jsstring) :
  strip_prefix d s = Some post -> s = d ++ post.
Proof.
  revert s. induction d as [|a d IH]; intros s E.
  - cbn in E. now injection E as ->.
  - destruct s as [|b s]; [discriminate|]. cbn [strip_prefix] in E.
    destruct (Z.eqb_spec a b) as [->|]; [|discriminate].
    cbn [app]. f_equal. now apply IH.
Qed.

Lemma span_end_eq (d s : jsstring) :
  span_end d s
  = match strip_prefix d s with
    | Some post => Some ([], post)
    | None =>
        match s with
        | ch :: s' =>
            if is_line_terminator ch then None
            else match span_end d s' with
                 | Some (x, post) => Some (ch :: x, post)
                 | None => None
                 end
        | [] => None
        end
    end.
Proof. destruct s; reflexivity. Qed.

Lemma span_end_inv (d s x post : jsstring) :
  span_end d s = Some (x, post) -> s = x ++ d ++ post /\ single_line x.
Proof.
  revert x. induction s as [|ch s IH]; intros x E; rewrite span_end_eq in E.
  - destruct (strip_prefix d []) as [p|] eqn:Ep; [|discriminate].
    injection E as <- <-. split; [cbn [app]; now apply strip_prefix_inv | intros c []].
  - destruct (strip_prefix d (ch :: s)) as [p|] eqn:Ep.
    + injection E as <- <-. split; [cbn [app]; now apply strip_prefix_inv | intros c []].
    + destruct (is_line_terminator ch) eqn:El; [discriminate|].
      destruct (span_end d s) as [[x' post']|]; [|discriminate].
      injection E as <- <-. destruct (IH x' eq_refl) as [-> Hl].
      split; [reflexivity|]. intros c [<-|Hc]; [exact El | now apply Hl].
Qed.

Lemma span_at_inv (d s x post : jsstring) :
  span_at d s = Some (x, post) -> s = d ++ x ++ d ++ post /\ single_line x.
Proof.
  unfold span_at. destruct (strip_prefix d s) as [s1|] eqn:E; [|discriminate].
  intros E'. apply strip_prefix_inv in E. apply span_end_inv in E'.
  destruct E' as [-> Hl]. now split.
Qed.

(** The lazy star over [.] followed by a delimiter finds the span end. *)
Lemma star_lazy_span_end (d : jsstring) (n : nat) (K : cont) (s1 : jsstring) :
  (forall s c, K s c = match strip_prefix d s with
                       | Some post => Some (post, c)
                       | None => None
                       end) ->
  forall (s2 acc : jsstring) (c : caps),
    s1 = acc ++ s2 ->
    star_lazy Dot
      (fun s c1 => K s ((n, firstn (length s1 - length s) s1) :: c1)) s2 c
    = match span_end d s2 with
      | Some (x, post) => Some (post, (n, acc ++ x) :: c)
      | None => None
      end.
Proof.
  intros HK s2. induction s2 as [|ch s2 IH]; intros acc c E;
    rewrite span_end_eq; cbn [star_lazy]; rewrite HK.
  - destruct (strip_prefix d []) as [post|]; [|reflexivity].
    subst s1. now rewrite firstn_length_diff, app_nil_r.
  - destruct (strip_prefix d (ch :: s2)) as [post|].
    + subst s1. now rewrite firstn_length_diff, app_nil_r.
    + cbn [cset_mem]. destruct (is_line_terminator ch); [reflexivity|].
      cbn [negb]. rewrite (IH (acc ++ [ch])) by (now rewrite <- app_assoc).
      destruct (span_end d s2) as [[x post]|]; [|reflexivity].
      now rewrite <- app_assoc.
Qed.

Lemma exec_bold_span_at (s : jsstring) :
  exec_at re_bold s
  = match span_at [asterisk; asterisk] s with
    | Some (x, post) => Some (post, [(1%nat, x)])
    | None => None
    end.
Proof.
  unfold exec_at, re_bold, span_at.
  destruct s as [|a s]; [reflexivity|].
  cbn [m cset_mem strip_prefix]. rewrite (Z.eqb_sym a asterisk).
  destruct (asterisk =? a); [|reflexivity].
  destruct s as [|b s]; [reflexivity|].
  rewrite (Z.eqb_sym b asterisk).
  destruct (asterisk =? b); [|reflexivity].
  rewrite (@star_lazy_span_end [asterisk; asterisk] 1
             (m (Cat (Sym (Lit asterisk)) (Sym (Lit asterisk)))
                (fun s' c => Some (s', c))) s) with (acc := []).
  - reflexivity.
  - intros s' c. cbn [m cset_mem strip_prefix].
    destruct s' as [|a' s']; [reflexivity|]. rewrite (Z.eqb_sym a' asterisk).
    destruct (asterisk =? a'); [|reflexivity].
    destruct s' as [|b' s']; [reflexivity|]. rewrite (Z.eqb_sym b' asterisk).
    now destruct (asterisk =? b').
  - reflexivity.
Qed.

Lemma exec_code_span_at (s : jsstring) :
  exec_at re_code s
  = match span_at [backtick] s with
    | Some (x, post) => Some (post, [(1%nat, x)])
    | None => None
    end.
Proof.
  unfold exec_at, re_code, span_at.
  destruct s as [|a s]; [reflexivity|].
  cbn [m cset_mem strip_prefix]. rewrite (Z.eqb_sym a backtick).
  destruct (backtick =? a); [|reflexivity].
  rewrite (@star_lazy_span_end [backtick] 1
             (m (Sym (Lit backtick)) (fun s' c => Some (s', c))) s) with (acc := []).
  - reflexivity.
  - intros s' c. cbn [m cset_mem strip_prefix].
    destruct s' as [|a' s']; [reflexivity|]. rewrite (Z.eqb_sym a' backtick).
    now destruct (backtick =? a').
  - reflexivity.
Qed.


Lemma replace_bold_marks : marks [asterisk; asterisk] strong_open strong_close replace_bold.
Proof.
  split; [reflexivity|]. split.
  - intros s x post E. destruct (@span_at_inv _ _ _ _ E) as [-> _].
    pose proof (exec_bold_span_at ([asterisk; asterisk] ++ x ++ [asterisk; asterisk] ++ post))
      as X. rewrite E in X.
    pose proof (@replace_all_match re_bold tpl_bold asterisk
                  (asterisk :: x ++ [asterisk; asterisk]) post [(1%nat, x)]) as M.
    cbn [app] in M, X |- *. rewrite <- app_assoc in M. cbn [app] in M.
    unfold replace_bold. rewrite (M X).
    cbn [subst tpl_bold group Nat.eqb]. now rewrite <- !app_assoc.
  - intros ch s E. unfold replace_bold. apply replace_all_nomatch.
    now rewrite exec_bold_span_at, E.
Qed.

Lemma replace_code_marks : marks [backtick] code_open code_close replace_code.
Proof.
  split; [reflexivity|]. split.
  - intros s x post E. destruct (@span_at_inv _ _ _ _ E) as [-> _].
    pose proof (exec_code_span_at ([backtick] ++ x ++ [backtick] ++ post)) as X.
    rewrite E in X.
    pose proof (@replace_all_match re_code tpl_code backtick
                  (x ++ [backtick]) post [(1%nat, x)]) as M.
    cbn [app] in M, X |- *. rewrite <- app_assoc in M. cbn [app] in M.
    unfold replace_code. rewrite (M X).
    cbn [subst tpl_code group Nat.eqb]. now rewrite <- !app_assoc.
  - intros ch s E. unfold replace_code. apply replace_all_nomatch.
    now rewrite exec_code_span_at, E.
Qed.

Lemma has_double_cons (c a b : Z) (s : jsstring) :
  has_double c (a :: b :: s) = ((a =? c) && (b =? c)) || has_double c (b :: s).
Proof. reflexivity. Qed.

Lemma no_double_tail (c a : Z) (s : jsstring) :
  no_double c (a :: s) -> no_double c s.
Proof.
  unfold no_double. destruct s as [|b s]; [reflexivity|].
  rewrite has_double_cons. intros E. now apply orb_false_iff in E.
Qed.

Lemma no_double_app_l (c : Z) (a b : jsstring) :
  no_double c (a ++ b) -> no_double c a.
Proof.
  unfold no_double. induction a as [|x a IH]; intros E; [reflexivity|].
  destruct a as [|y a]; [reflexivity|].
  cbn [app] in *. rewrite has_double_cons in *.
  apply orb_false_iff in E. destruct E as [E1 E2].
  rewrite E1. cbn [orb]. now apply IH.
Qed.

(** A double asterisk starts with two asterisks. *)
Lemma strip_double (s : jsstring) :
  strip_prefix [asterisk; asterisk] s
  = match s with
    | a :: b :: post => if (a =? asterisk) && (b =? asterisk) then Some post else None
    | _ => None
    end.
Proof.
  destruct s as [|a [|b s]]; cbn [strip_prefix];
    rewrite ?(Z.eqb_sym asterisk a), ?(Z.eqb_sym asterisk b);
    try reflexivity.
  - now destruct (a =? asterisk).
  - now destruct (a =? asterisk), (b =? asterisk).
Qed.

Lemma span_end_double (s x post : jsstring) :
  span_end [asterisk; asterisk] s = Some (x, post)
  <-> s = x ++ asterisk :: asterisk :: post
      /\ single_line x /\ no_double asterisk (x ++ [asterisk]).
Proof.
  split.
  - intros E. destruct (@span_end_inv _ _ _ _ E) as [Es Hl].
    split; [exact Es|]. split; [exact Hl|]. clear Es Hl.
    revert x E. induction s as [|ch s IH]; intros x E; rewrite span_end_eq in E.
    + rewrite strip_double in E. discriminate.
    + destruct (strip_prefix [asterisk; asterisk] (ch :: s)) as [p|] eqn:Ep.
      * injection E as <- <-. reflexivity.
      * destruct (is_line_terminator ch); [discriminate|].
        destruct (span_end [asterisk; asterisk] s) as [[x' post']|] eqn:Es;
          [|discriminate].
        injection E as <- <-. specialize (IH x' eq_refl).
        destruct (@span_end_inv _ _ _ _ Es) as [-> _].
        rewrite strip_double in Ep. unfold no_double in *.
        destruct x' as [|b x'].
        -- cbn [app] in *. cbn [has_double].
           destruct (ch =? asterisk); [|reflexivity].
           rewrite Z.eqb_refl in *. discriminate.
        -- cbn [app] in *. rewrite has_double_cons, IH.
           destruct ((ch =? asterisk) && (b =? asterisk)); [discriminate|reflexivity].
  - intros (-> & Hl & Hd). induction x as [|ch x IH]; rewrite span_end_eq.
    + cbn [app]. rewrite strip_double, !Z.eqb_refl. reflexivity.
    + assert (Ep : strip_prefix [asterisk; asterisk]
                     ((ch :: x) ++ asterisk :: asterisk :: post) = None).
      { rewrite strip_double. unfold no_double in Hd.
        destruct x as [|b x]; cbn [app] in *.
        - cbn [has_double] in Hd. rewrite Z.eqb_refl in *.
          rewrite orb_false_r in Hd. now rewrite Hd.
        - rewrite has_double_cons in Hd. apply orb_false_iff in Hd.
          destruct Hd as [-> _]. reflexivity. }
      rewrite Ep. cbn [app]. rewrite (Hl ch) by now left.
      rewrite IH; [reflexivity| |].
      * intros c Hc. apply Hl. now right.
      * now apply no_double_tail with ch.
Qed.

Lemma span_at_double (s x post : jsstring) :
  span_at [asterisk; asterisk] s = Some (x, post)
  <-> s = asterisk :: asterisk :: x ++ asterisk :: asterisk :: post
      /\ single_line x /\ no_double asterisk (x ++ [asterisk]).
Proof.
  unfold span_at. split.
  - intros E.
    destruct (strip_prefix [asterisk; asterisk] s) as [s1|] eqn:Es; [|discriminate].
    apply strip_prefix_inv in Es. apply span_end_double in E.
    destruct E as (-> & Hl & Hd). now repeat split.
  - intros (-> & Hl & Hd).
    change (asterisk :: asterisk :: x ++ asterisk :: asterisk :: post)
      with ([asterisk; asterisk] ++ x ++ asterisk :: asterisk :: post).
    rewrite strip_prefix_app. apply span_end_double. now repeat split.
Qed.

Lemma strip_single (s : jsstring) :
  strip_prefix [backtick] s
  = match s with
    | a :: post => if a =? backtick then Some post else None
    | [] => None
    end.
Proof.
  destruct s as [|a s]; cbn [strip_prefix]; [reflexivity|].
  rewrite (Z.eqb_sym backtick a). now destruct (a =? backtick).
Qed.

Lemma span_end_single (s x post : jsstring) :
  span_end [backtick] s = Some (x, post)
  <-> s = x ++ backtick :: post /\ single_line x /\ no_char backtick x.
Proof.
  split.
  - intros E. destruct (@span_end_inv _ _ _ _ E) as [Es Hl].
    split; [exact Es|]. split; [exact Hl|]. clear Es Hl.
    revert x E. induction s as [|ch s IH]; intros x E; rewrite span_end_eq in E.
    + rewrite strip_single in E. discriminate.
    + rewrite strip_single in E. destruct (Z.eqb_spec ch backtick) as [->|Hne].
      * injection E as <- <-. intros c [].
      * destruct (is_line_terminator ch); [discriminate|].
        destruct (span_end [backtick] s) as [[x' post']|] eqn:Es; [|discriminate].
        injection E as <- <-. specialize (IH x' eq_refl).
        intros c [<-|Hc]; [exact Hne | now apply IH].
  - intros (-> & Hl & Hd). induction x as [|ch x IH]; rewrite span_end_eq.
    + cbn [app]. rewrite strip_single, Z.eqb_refl. reflexivity.
    + rewrite strip_single. cbn [app].
      rewrite (proj2 (Z.eqb_neq ch backtick)) by (apply Hd; now left).
      rewrite (Hl ch) by now left.
      rewrite IH; [reflexivity| |].
      * intros c Hc. apply Hl. now right.
      * intros c Hc. apply Hd. now right.
Qed.

Lemma span_at_single (s y post : jsstring) :
  span_at [backtick] s = Some (y, post)
  <-> s = backtick :: y ++ backtick :: post
      /\ single_line y /\ no_char backtick y.
Proof.
  unfold span_at. split.
  - intros E.
    destruct (strip_prefix [backtick] s) as [s1|] eqn:Es; [|discriminate].
    apply strip_prefix_inv in Es. apply span_end_single in E.
    destruct E as (-> & Hl & Hd). now repeat split.
  - intros (-> & Hl & Hd).
    change (backtick :: y ++ backtick :: post)
      with ([backtick] ++ y ++ backtick :: post).
    rewrite strip_prefix_app. apply span_end_single. now repeat split.
Qed.

(** Text without double asterisk before a bold span is copied. *)
Lemma replace_bold_copy (pre rest : jsstring) :
  no_double asterisk (pre ++ [asterisk]) ->
  replace_bold (pre ++ asterisk :: rest) = pre ++ replace_bold (asterisk :: rest).
Proof.
  induction pre as [|ch pre IH]; intros Hd; [reflexivity|].
  cbn [app]. destruct replace_bold_marks as (_ & _ & Hcopy).
  rewrite Hcopy.
  - f_equal. apply IH. now apply no_double_tail with ch.
  - unfold span_at. rewrite strip_double. unfold no_double in Hd.
    destruct pre as [|b pre]; cbn [app] in *.
    + cbn [has_double] in Hd. rewrite Z.eqb_refl in *.
      rewrite orb_false_r in Hd. now rewrite Hd.
    + rewrite has_double_cons in Hd. apply orb_false_iff in Hd.
      destruct Hd as [-> _]. reflexivity.
Qed.

Lemma replace_bold_spans (pre x post : jsstring) :
  no_double asterisk (pre ++ [asterisk]) ->
  single_line x -> no_double asterisk (x ++ [asterisk]) ->
  replace_bold (pre ++ asterisk :: asterisk :: x ++ asterisk :: asterisk :: post)
  = pre ++ strong_open ++ x ++ strong_close ++ replace_bold post.
Proof.
  intros Hp Hl Hd. rewrite replace_bold_copy by exact Hp. f_equal.
  destruct replace_bold_marks as (_ & Hspan & _).
  apply Hspan. apply span_at_double. now repeat split.
Qed.

Lemma replace_bold_no_double (s : jsstring) :
  no_double asterisk s -> replace_bold s = s.
Proof.
  destruct replace_bold_marks as (Hnil & _ & Hcopy).
  induction s as [|ch s IH]; intros Hd; [exact Hnil|].
  rewrite Hcopy.
  - f_equal. apply IH. now apply no_double_tail with ch.
  - unfold span_at. rewrite strip_double. unfold no_double in Hd.
    destruct s as [|b s]; [reflexivity|].
    rewrite has_double_cons in Hd. apply orb_false_iff in Hd.
    destruct Hd as [-> _]. reflexivity.
Qed.

Lemma no_double_cons_other (c a : Z) (s : jsstring) :
  a <> c -> no_double c s -> no_double c (a :: s).
Proof.
  unfold no_double. intros Hne Hd. destruct s as [|b s]; [reflexivity|].
  rewrite has_double_cons, Hd, (proj2 (Z.eqb_neq a c) Hne). reflexivity.
Qed.

Lemma no_double_snoc_other (c b : Z) (s : jsstring) :
  b <> c -> no_double c s -> no_double c (s ++ [b]).
Proof.
  unfold no_double. intros Hne. induction s as [|a s IH]; intros Hd; [reflexivity|].
  destruct s as [|a' s]; cbn [app] in *.
  - cbn [has_double]. rewrite (proj2 (Z.eqb_neq b c) Hne).
    now rewrite andb_false_r.
  - rewrite has_double_cons in *. apply orb_false_iff in Hd.
    destruct Hd as [-> Hd]. cbn [orb]. now apply IH.
Qed.

End Spans.


(* ================================================================== *)
(** * The whole formatting chain *)
(* ================================================================== *)

Section Formatting.

Lemma no_char_app (d : Z) (a b : jsstring) :
  no_char d a -> no_char d b -> no_char d (a ++ b).
Proof.
  intros Ha Hb ch Hin. apply in_app_iff in Hin. destruct Hin; auto.
Qed.

Lemma no_char_cons (d ch : Z) (a : jsstring) :
  ch <> d -> no_char d a -> no_char d (ch :: a).
Proof.
  intros Hc Ha c [<-|Hin]; auto.
Qed.

(** A closed string has no occurrence of a character: decided by running. *)
Lemma no_char_closed (d : Z) (a : jsstring) :
  forallb (fun ch => negb (ch =? d)) a = true -> no_char d a.
Proof.
  intros H ch Hin. rewrite forallb_forall in H. specialize (H ch Hin).
  apply negb_true_iff in H. now apply Z.eqb_neq.
Qed.

Lemma single_line_no_newline (x : jsstring) : single_line x -> no_char newline x.
Proof.
  intros H ch Hin ->. specialize (H _ Hin). discriminate.
Qed.

Lemma html_newline_free (s : jsstring) : ~ In newline (html s).
Proof.
  unfold html. rewrite replace_newline_flat_map. apply flat_map_newline_free.
Qed.

(** A fenced block with an optional language tag and a newline before the
    body: the body, with its newlines turned into line breaks, between the
    preformatted tags. *)
Lemma html_fenced (lang body : jsstring) :
  words lang -> no_char backtick body -> no_char asterisk body ->
  html (fence ++ lang ++ newline :: body ++ fence)
  = pre_open ++ flat_map newline_to_br body ++ pre_close.
Proof.
  intros Hw Hb Ha. unfold html.
  rewrite replace_fence_newline by assumption.
  rewrite replace_bold_id, replace_code_id.
  - rewrite replace_newline_flat_map, !flat_map_app. reflexivity.
  - repeat apply no_char_app; try assumption; now apply no_char_closed.
  - repeat apply no_char_app; try assumption; now apply no_char_closed.
Qed.

Lemma html_fence_tag_only (lang : jsstring) :
  words lang -> html (fence ++ lang ++ fence) = pre_open ++ pre_close.
Proof.
  intros Hw. unfold html. rewrite replace_fence_tag_only by assumption.
  reflexivity.
Qed.

End Formatting.

Section FormattingClaims.

Lemma words_closed (a : jsstring) : forallb is_word_char a = true -> words a.
Proof. intros H ch Hin. rewrite forallb_forall in H. now apply H. Qed.

Lemma single_line_closed (a : jsstring) :
  forallb (fun ch => negb (is_line_terminator ch)) a = true -> single_line a.
Proof.
  intros H ch Hin. rewrite forallb_forall in H. specialize (H ch Hin).
  now apply negb_true_iff in H.
Qed.

(** C4, as stated, fails: the word right after the opening fence is read
    as the language tag, so the block rendered from the text
    fence-code-fence is empty. *)
Lemma html_fence_code_fence_is_empty :
  html (str "```code```") = str "<pre></pre>"
  /\ html (str "```code```") <> str "<pre>code</pre>".
Proof.
  split; [vm_compute; reflexivity | vm_compute; discriminate].
Qed.

(** C4 (amended): a fence, an optional language tag of word characters, a
    newline, a body without backtick, asterisk or newline, and a closing fence
    are rendered as the body between the preformatted tags, fences stripped;
    a fence, word characters and a closing fence with no newline between are
    rendered as an empty preformatted block. *)
Theorem html_fenced_code (lang tag body : jsstring) :
  words lang -> words tag ->
  no_char backtick body -> no_char asterisk body -> no_char newline body ->
  html (fence ++ lang ++ newline :: body ++ fence) = pre_open ++ body ++ pre_close
  /\ html (fence ++ tag ++ fence) = pre_open ++ pre_close.
Proof.
  intros Hl Ht Hb Ha Hn. split.
  - rewrite html_fenced by assumption. now rewrite flat_map_newline_id.
  - now apply html_fence_tag_only.
Qed.

Lemma html_fenced_code_witness :
  html (str "```
code```") = str "<pre>code</pre>"
  /\ html (str "```code```") = str "<pre></pre>".
Proof.
  apply (@html_fenced_code [] (str "code") (str "code")).
  - intros ch [].
  - apply words_closed. reflexivity.
  - apply no_char_closed. reflexivity.
  - apply no_char_closed. reflexivity.
  - apply no_char_closed. reflexivity.
Defined.

(** C10: the newline substitution runs last and over the whole string, so
    no newline is left in the output of any input, and the newlines of a
    fenced body come out as line breaks inside the preformatted block. *)
Theorem html_newlines_in_pre (s lang body : jsstring) :
  words lang -> no_char backtick body -> no_char asterisk body ->
  html s = replace_newline (replace_code (replace_bold (replace_fence s)))
  /\ ~ In newline (html s)
  /\ html (fence ++ lang ++ newline :: body ++ fence)
     = pre_open ++ flat_map newline_to_br body ++ pre_close.
Proof.
  intros Hl Hb Ha. split; [reflexivity|]. split.
  - apply html_newline_free.
  - now apply html_fenced.
Qed.

Lemma html_newlines_in_pre_witness :
  html (str "```js
a
b```") = str "<pre>a<br>b</pre>".
Proof.
  apply (@html_newlines_in_pre [] (str "js") (str "a
b")).
  - apply words_closed. reflexivity.
  - apply no_char_closed. reflexivity.
  - apply no_char_closed. reflexivity.
Defined.

(** C5, as stated, fails: [.] does not match a line terminator, so a span
    that runs over a newline is left with its delimiters. *)
Lemma span_across_lines_is_kept :
  html (str "**a
b**") = str "**a<br>b**"
  /\ html (str "`a
b`") = str "`a<br>b`"
  /\ ~ every_bold_span_is_strong
  /\ ~ every_backtick_span_is_code.
Proof.
  split; [vm_compute; reflexivity|].
  split; [vm_compute; reflexivity|].
  assert (Ha : no_char asterisk (str "a
b")) by (apply no_char_closed; reflexivity).
  assert (Hb : no_char backtick (str "a
b")) by (apply no_char_closed; reflexivity).
  split; intros H; specialize (H _ Ha Hb); vm_compute in H; discriminate.
Qed.

Lemma html_bold_newline_code (x y : jsstring) :
  single_line x -> no_double asterisk (x ++ [asterisk]) -> no_char backtick x ->
  single_line y -> no_char backtick y -> no_double asterisk y ->
  html (asterisk :: asterisk :: x ++ asterisk :: asterisk :: newline
          :: backtick :: y ++ [backtick])
  = strong_open ++ x ++ strong_close ++ br ++ code_open ++ y ++ code_close.
Proof.
  intros Hxl Hxa Hxb Hyl Hyb Hya. unfold html.
  assert (Hf : replace_fence (asterisk :: asterisk :: x ++ asterisk :: asterisk
                 :: newline :: backtick :: y ++ [backtick])
               = asterisk :: asterisk :: x ++ asterisk :: asterisk
                 :: newline :: backtick :: y ++ [backtick]).
  { change (asterisk :: asterisk :: x ++ asterisk :: asterisk
              :: newline :: backtick :: y ++ [backtick])
      with ([asterisk; asterisk] ++ x ++ [asterisk; asterisk; newline]
              ++ (backtick :: y ++ [backtick])).
    rewrite !app_assoc. unfold replace_fence.
    rewrite replace_all_prefix.
    - f_equal. now apply replace_fence_code_span.
    - intros ch s' Hin. apply exec_fence_head. revert ch Hin.
      repeat apply no_char_app; try assumption; now apply no_char_closed. }
  rewrite Hf.
  pose proof (@replace_bold_spans [] x (newline :: backtick :: y ++ [backtick])
                eq_refl Hxl Hxa) as Eb.
  cbn [app] in Eb. rewrite Eb. clear Eb.
  rewrite replace_bold_no_double
    by (repeat apply no_double_cons_other; try discriminate;
        apply no_double_snoc_other; [discriminate | exact Hya]).
  cbn [app].
  replace (strong_open ++ x ++ strong_close ++ newline :: backtick :: y ++ [backtick])
    with ((strong_open ++ x ++ strong_close ++ [newline]) ++ backtick :: y ++ backtick :: [])
    by (now rewrite <- !app_assoc).
  rewrite replace_code_span; try assumption.
  - rewrite replace_newline_flat_map, !flat_map_app.
    rewrite (flat_map_newline_id (s := x)) by now apply single_line_no_newline.
    rewrite (flat_map_newline_id (s := y)) by now apply single_line_no_newline.
    cbn. now rewrite <- !app_assoc.
  - repeat apply no_char_app; try assumption; now apply no_char_closed.
Qed.

(** C5 (amended): the four substitutions run in the order fence, bold,
    inline code, newline, each on the output of the one before.  The bold
    substitution reads its input from left to right: where a double
    asterisk is followed by another one with no line terminator between
    them, the text [x] up to the nearest such double asterisk is a span, the
    span with its delimiters becomes [x] in strong emphasis and reading goes
    on after the span; any other character is copied.  The inline-code
    substitution does the same for the single backtick and the code span.
    Every newline becomes a line break.  So text without double asterisk is
    copied up to a bold span, text without backtick up to a code span, and a
    bold span, a newline and a code span in a row are each rendered by
    their own rule. *)
Theorem html_rules :
  (forall s, html s = replace_newline (replace_code (replace_bold (replace_fence s))))
  /\ marks [asterisk; asterisk] strong_open strong_close replace_bold
  /\ marks [backtick] code_open code_close replace_code
  /\ (forall s x post,
        span_at [asterisk; asterisk] s = Some (x, post)
        <-> s = asterisk :: asterisk :: x ++ asterisk :: asterisk :: post
            /\ single_line x /\ no_double asterisk (x ++ [asterisk]))
  /\ (forall s y post,
        span_at [backtick] s = Some (y, post)
        <-> s = backtick :: y ++ backtick :: post
            /\ single_line y /\ no_char backtick y)
  /\ (forall s, replace_newline s = flat_map newline_to_br s)
  /\ (forall pre x post,
        no_double asterisk (pre ++ [asterisk]) ->
        single_line x -> no_double asterisk (x ++ [asterisk]) ->
        replace_bold (pre ++ asterisk :: asterisk :: x ++ asterisk :: asterisk :: post)
        = pre ++ strong_open ++ x ++ strong_close ++ replace_bold post)
  /\ (forall pre y post,
        no_char backtick pre -> single_line y -> no_char backtick y ->
        replace_code (pre ++ backtick :: y ++ backtick :: post)
        = pre ++ code_open ++ y ++ code_close ++ replace_code post)
  /\ (forall x y,
        single_line x -> no_double asterisk (x ++ [asterisk]) -> no_char backtick x ->
        single_line y -> no_char backtick y -> no_double asterisk y ->
        html (asterisk :: asterisk :: x ++ asterisk :: asterisk :: newline
                :: backtick :: y ++ [backtick])
        = strong_open ++ x ++ strong_close ++ br ++ code_open ++ y ++ code_close).
Proof.
  split; [reflexivity|].
  split; [exact replace_bold_marks|].
  split; [exact replace_code_marks|].
  split; [exact span_at_double|].
  split; [exact span_at_single|].
  split; [exact replace_newline_flat_map|].
  split; [exact replace_bold_spans|].
  split; [intros pre y post Hp Hl Hb; now apply replace_code_span|].
  exact html_bold_newline_code.
Qed.

Lemma html_rules_witness :
  replace_bold (str "x*y **a*b**") = str "x*y <strong>a*b</strong>"
  /\ html (str "**bold**
`code`") = str "<strong>bold</strong><br><code>code</code>".
Proof.
  destruct html_rules as (_ & _ & _ & _ & _ & _ & Hbold & _ & Hboth).
  split.
  - apply (Hbold (str "x*y ") (str "a*b") []).
    + reflexivity.
    + apply single_line_closed. reflexivity.
    + reflexivity.
  - apply (Hboth (str "bold") (str "code")).
    + apply single_line_closed. reflexivity.
    + reflexivity.
    + apply no_char_closed. reflexivity.
    + apply single_line_closed. reflexivity.
    + apply no_char_closed. reflexivity.
    + reflexivity.
Defined.

End FormattingClaims.

(* ================================================================== *)
(** * The chat widget: sending and settling *)
(* ================================================================== *)

Section ChatFacts.

Context {number : Type} `{JsNumber number}.

Lemma class_tokens_user : class_tokens (s_message_ ++ s_user) = [s_message; s_user].
Proof. reflexivity. Qed.

Lemma class_tokens_assistant :
  class_tokens (s_message_ ++ s_assistant) = [s_message; s_assistant].
Proof. reflexivity. Qed.

Lemma adicionarMensagemChat_user (s : jsstring) (p : page) :
  adicionarMensagemChat s_user (@VString number s) p = (Ok tt, appended s_user s p).
Proof. reflexivity. Qed.

Lemma adicionarMensagemChat_assistant (s : jsstring) (p : page) :
  adicionarMensagemChat s_assistant (@VString number s) p
  = (Ok tt, appended s_assistant s p).
Proof. reflexivity. Qed.

(** Anything but a string makes [conteudo.replace] throw, after the
    element was created. *)
Lemma adicionarMensagemChat_not_string (role : jsstring) (v : value number) (p : page) :
  (forall s, v <> VString s) ->
  adicionarMensagemChat role v p = (Throw TypeError, set_next_id (S (next_id p)) p).
Proof.
  intros Hv. destruct v; try reflexivity. now destruct (Hv s).
Qed.

Lemma removeChild_lastChild_last (p : page) (t : list node) (x : node) :
  chatMessages p = t ++ [x] ->
  removeChild_lastChild p = (Ok tt, set_chatMessages t p).
Proof.
  intros E. unfold removeChild_lastChild, bind, gets. rewrite E.
  destruct (t ++ [x]) eqn:E'.
  - now destruct t.
  - rewrite <- E'. unfold modify. now rewrite removelast_last.
Qed.

Lemma trim_start_blank (s : jsstring) : blank s -> trim_start s = [].
Proof.
  induction s as [|ch s IH]; intros Hb; [reflexivity|].
  cbn [trim_start]. rewrite Hb by now left.
  apply IH. intros c Hc. apply Hb. now right.
Qed.

Lemma trim_blank (s : jsstring) : blank s -> trim s = [].
Proof.
  intros Hb. unfold trim. rewrite (trim_start_blank Hb). reflexivity.
Qed.

(** What [enviarMensagem] does with a message that is not blank. *)
Lemma enviarMensagem_sends (p : page) :
  trim (chatInput_value p) <> [] ->
  @enviarMensagem number p
  = (Ok tt,
     set_fetches
       (fetches p ++ [{| url := s_url;
                         method := s_POST;
                         headers := [(s_Content_Type, s_application_json)];
                         body := stringify_request (trim (chatInput_value p)) |}])
       (appended s_assistant s_pensando
          (set_chatInput_value []
             (appended s_user (trim (chatInput_value p)) p)))).
Proof.
  intros Hne. unfold enviarMensagem, bind, gets. cbn [fst snd].
  destruct (trim (chatInput_value p)) as [|ch m'] eqn:E; [congruence|].
  reflexivity.
Qed.

End ChatFacts.

Section ChatSettling.

Context {number : Type} `{JsNumber number}.

Lemma html_erro_conexao : html s_erro_conexao = s_erro_conexao.
Proof. vm_compute. reflexivity. Qed.

Lemma html_pensando : html s_pensando = s_pensando.
Proof. vm_compute. reflexivity. Qed.

(** The [.catch] callback with a transcript that is not empty. *)
Lemma enviarMensagem_catch_last (p : page) (t : list node) (x : node) (e : error) :
  chatMessages p = t ++ [x] ->
  enviarMensagem_catch (number := number) e p
  = (Ok tt,
     set_console_error (console_error p ++ [(s_erro_no_chat, e)])
       (appended s_assistant s_erro_conexao (set_chatMessages t p))).
Proof.
  intros E. unfold enviarMensagem_catch, bind.
  erewrite removeChild_lastChild_last by exact E. reflexivity.
Qed.

(** The [.then] callback either appends one assistant entry in place of
    the last entry, or throws after removing the last entry, having
    created at most one element. *)
Lemma enviarMensagem_then_cases (p : page) (t : list node) (x : node)
      (data : value number) :
  chatMessages p = t ++ [x] ->
  (exists c, enviarMensagem_then data p
             = (Ok tt, appended s_assistant c (set_chatMessages t p)))
  \/ (exists k, enviarMensagem_then data p
                = (Throw TypeError,
                   set_next_id (k + next_id p) (set_chatMessages t p))).
Proof.
  intros E. unfold enviarMensagem_then, bind.
  erewrite removeChild_lastChild_last by exact E.
  assert (Hfield : forall key,
            (exists v, get_field key data (set_chatMessages t p)
                       = (Ok v, set_chatMessages t p))
            \/ get_field key data (set_chatMessages t p)
               = (Throw TypeError, set_chatMessages t p)).
  { intros key. destruct data; cbn [get_field];
      try (right; reflexivity); try (left; eexists; reflexivity).
    destruct (lookup key props); left; eexists; reflexivity. }
  destruct (Hfield s_sucesso) as [[v Ev]|Ev]; rewrite Ev;
    [|right; exists 0%nat; reflexivity].
  destruct (truthy v).
  - destruct (Hfield s_resposta) as [[r Er]|Er]; rewrite Er;
      [|right; exists 0%nat; reflexivity].
    destruct r as [ | | b | n | s | items | props];
      try (right; exists 1%nat; reflexivity).
    left. exists s. reflexivity.
  - destruct (Hfield s_erro) as [[r Er]|Er]; rewrite Er;
      [|right; exists 0%nat; reflexivity].
    unfold concat. destruct (to_string r) as [line|].
    + left. exists (cross_ ++ line). reflexivity.
    + right. exists 0%nat. reflexivity.
Qed.

End ChatSettling.

Section ChatClaims.

Context {number : Type} `{JsNumber number}.

Lemma html_plain (s : jsstring) : plain s -> html s = s.
Proof.
  intros (Hb & Ha & Hn). unfold html.
  rewrite replace_fence_id, replace_bold_id, replace_code_id by assumption.
  rewrite replace_newline_flat_map. now apply flat_map_newline_id.
Qed.

Lemma quote_chars_safe (s : jsstring) : json_safe s -> quote_chars s = s.
Proof.
  induction s as [|ch s IH]; intros Hs; [reflexivity|].
  destruct (Hs ch (or_introl eq_refl)) as (H32 & Hq & Hb & Hsur).
  cbn [quote_chars].
  assert (Hh : is_high_surrogate ch = false)
    by (unfold is_high_surrogate; lia).
  assert (Hl : is_low_surrogate ch = false)
    by (unfold is_low_surrogate; lia).
  rewrite Hh, Hl. unfold escape_char, quote, backslash in *.
  repeat match goal with
         | |- context [?a =? ?b] => destruct (Z.eqb_spec a b); [lia|]
         end.
  destruct (Z.ltb_spec ch 32); [lia|].
  cbn [app]. f_equal. apply IH.
  intros c Hc. apply Hs. now right.
Qed.

(** C6: with an input that is empty or white space only, [enviarMensagem]
    changes nothing: same transcript, same input value, no request. *)
Theorem enviarMensagem_blank (p : page) :
  blank (chatInput_value p) ->
  let p' := exec (@enviarMensagem number) p in
  p' = p
  /\ length (chatMessages p') = length (chatMessages p)
  /\ chatInput_value p' = chatInput_value p
  /\ fetches p' = fetches p.
Proof.
  intros Hb. cbv zeta.
  assert (E : exec (@enviarMensagem number) p = p).
  { unfold exec, enviarMensagem, bind, gets. cbn [fst snd].
    now rewrite (trim_blank Hb). }
  rewrite E. repeat split.
Qed.

(** C2 (amended): for a message that is not blank, [enviarMensagem]
    issues exactly one request: POST to /ai/chat, with the header
    Content-Type: application/json, whose body is the JSON text of an
    object with the single key mensagem and the trimmed text as value. *)
Theorem enviarMensagem_request (p : page) :
  trim (chatInput_value p) <> [] ->
  let t := trim (chatInput_value p) in
  fetches (exec (@enviarMensagem number) p)
  = fetches p ++ [{| url := s_url;
                     method := s_POST;
                     headers := [(s_Content_Type, s_application_json)];
                     body := 123 :: quote :: s_mensagem ++ quote :: 58
                               :: QuoteJSONString t ++ [125] |}]
  /\ (json_safe t -> QuoteJSONString t = quote :: t ++ [quote]).
Proof.
  intros Hne. cbv zeta. split.
  - unfold exec. rewrite enviarMensagem_sends by exact Hne. reflexivity.
  - intros Hs. unfold QuoteJSONString. now rewrite quote_chars_safe.
Qed.

(** C7: when the request fails in transport, the handler removes the last
    transcript entry, appends one assistant entry with the fixed
    connection-error line, whatever the failure was, and writes the failure
    to the console; nothing else on the page changes. *)
Theorem settle_transport_failure (p : page) (t : list node) (x : node)
        (o : outcome number) (e : error) :
  chatMessages p = t ++ [x] ->
  transport_failure o e ->
  let p' := exec (settle o) p in
  fst (settle o p) = Ok tt
  /\ chatMessages p'
     = t ++ [{| node_id := next_id p;
                classList := [s_message; s_assistant];
                node_content := InnerHTML (p_open ++ s_erro_conexao ++ p_close);
                style_top := None;
                style_left := None |}]
  /\ console_error p' = console_error p ++ [(s_erro_no_chat, e)]
  /\ chatInput_value p' = chatInput_value p
  /\ body_children p' = body_children p
  /\ fetches p' = fetches p.
Proof.
  intros E Ho. cbv zeta.
  assert (Es : settle o p = enviarMensagem_catch (number := number) e p)
    by (destruct Ho as [-> | ->]; reflexivity).
  unfold exec. rewrite Es. erewrite enviarMensagem_catch_last by exact E.
  cbn [fst snd]. repeat split.
Qed.

(** C3 (amended): with a transcript that is not empty, the [.then]
    callback removes the last entry whatever the data is, and then appends
    at most one assistant entry.  The fields it reads are named sucesso,
    resposta and erro.  With a truthy sucesso and a string resposta it
    appends an assistant entry holding the rendering of resposta; with a
    falsy sucesso and a string erro it appends an assistant entry holding the
    rendering of the cross mark, a space and erro.  An entry holds its
    rendered content inside a paragraph. *)
Theorem enviarMensagem_then_shapes (p : page) (t : list node) (x : node)
        (props : list (jsstring * value number)) :
  chatMessages p = t ++ [x] ->
  (forall data, let p' := exec (enviarMensagem_then data) p in
     chatMessages p' = t
     \/ exists c, chatMessages p' = t ++ [entry (next_id p) s_assistant c])
  /\ (forall v r,
        lookup s_sucesso props = Some v -> truthy v = true ->
        lookup s_resposta props = Some (VString r) ->
        enviarMensagem_then (VObject props) p
        = (Ok tt, appended s_assistant r (set_chatMessages t p)))
  /\ (forall v e,
        lookup s_sucesso props = Some v -> truthy v = false ->
        lookup s_erro props = Some (VString e) ->
        enviarMensagem_then (VObject props) p
        = (Ok tt, appended s_assistant (cross_ ++ e) (set_chatMessages t p)))
  /\ (forall c, chatMessages (appended s_assistant c (set_chatMessages t p))
                = t ++ [{| node_id := next_id p;
                           classList := [s_message; s_assistant];
                           node_content := InnerHTML (p_open ++ html c ++ p_close);
                           style_top := None;
                           style_left := None |}]).
Proof.
  intros E. repeat split.
  - intros data. cbv zeta. unfold exec.
    destruct (enviarMensagem_then_cases p t x data E) as [[c ->]|[k ->]].
    + right. exists c. reflexivity.
    + left. reflexivity.
  - intros v r Hs Ht Hr. unfold enviarMensagem_then, bind.
    erewrite removeChild_lastChild_last by exact E.
    cbn [get_field]. rewrite Hs. unfold ret at 1. rewrite Ht.
    rewrite Hr. reflexivity.
  - intros v e Hs Ht He. unfold enviarMensagem_then, bind.
    erewrite removeChild_lastChild_last by exact E.
    cbn [get_field]. rewrite Hs. unfold ret at 1. rewrite Ht.
    rewrite He. reflexivity.
Qed.

(** C1 (amended): for an input whose trimmed value is not empty, on a page
    whose transcript elements are older than the next element, a send
    appends one user entry and the placeholder and clears the input.  The
    user entry holds the rendering of the trimmed text, which is that text
    itself when it has no backtick, asterisk or newline.  Once the request
    is settled, whatever the outcome, exactly one assistant entry stands at
    the end of the transcript in place of the placeholder, the placeholder
    element is gone, and the entries before are the old transcript and the
    user entry; the user entry is there whenever the request was rejected
    or the [.then] callback ran to its end. *)
Theorem enviarMensagem_then_settle (p : page) (o : outcome number) :
  trim (chatInput_value p) <> [] -> ids_fresh p ->
  let mensagem := trim (chatInput_value p) in
  let user := entry (next_id p) s_user mensagem in
  let placeholder := entry (S (next_id p)) s_assistant s_pensando in
  let p1 := exec (@enviarMensagem number) p in
  let p2 := exec (settle o) p1 in
  chatMessages p1 = chatMessages p ++ [user; placeholder]
  /\ chatInput_value p1 = []
  /\ markup user = p_open ++ html mensagem ++ p_close
  /\ (plain mensagem -> markup user = p_open ++ mensagem ++ p_close)
  /\ (exists id c,
        chatMessages p2 = chatMessages p ++ [user; entry id s_assistant c]
        \/ chatMessages p2 = chatMessages p ++ [entry id s_assistant c])
  /\ (completes o p1 ->
      exists id c, chatMessages p2 = chatMessages p ++ [user; entry id s_assistant c])
  /\ ~ In (node_id placeholder) (map node_id (chatMessages p2)).
Proof.
  intros Hne Hfresh. cbv zeta.
  set (mensagem := trim (chatInput_value p)).
  set (user := entry (next_id p) s_user mensagem).
  set (placeholder := entry (S (next_id p)) s_assistant s_pensando).
  assert (E1 : exec (@enviarMensagem number) p
               = set_fetches
                   (fetches p ++ [{| url := s_url;
                                     method := s_POST;
                                     headers := [(s_Content_Type, s_application_json)];
                                     body := stringify_request mensagem |}])
                   (appended s_assistant s_pensando
                      (set_chatInput_value [] (appended s_user mensagem p))))
    by (unfold exec; rewrite enviarMensagem_sends by exact Hne; reflexivity).
  rewrite E1. set (p1 := set_fetches _ _).
  assert (Et : chatMessages p1 = (chatMessages p ++ [user]) ++ [placeholder])
    by reflexivity.
  assert (Eu : chatMessages p ++ [user] = chatMessages p ++ [user]) by reflexivity.
  assert (Hold : forall id,
            (S (next_id p) < id)%nat ->
            forall l, (l = [user] \/ l = []) ->
            forall c, ~ In (node_id placeholder)
                        (map node_id (chatMessages p ++ l ++ [entry id s_assistant c]))).
  { intros id Hid l Hl c Hin. rewrite !map_app, !in_app_iff in Hin.
    destruct Hin as [Hin|[Hin|Hin]].
    - apply in_map_iff in Hin. destruct Hin as (n & En & Hn).
      specialize (Hfresh n Hn). cbn in En. lia.
    - destruct Hl as [-> | ->]; cbn in Hin; [lia | tauto].
    - cbn in Hin. lia. }
  assert (Hsettle :
            (fst (settle o p1) = Ok tt /\ completes o p1 /\
             exists id c, (S (next_id p) < id)%nat /\
               chatMessages (exec (settle o) p1)
               = chatMessages p ++ [user] ++ [entry id s_assistant c])
            \/ (~ completes o p1 /\
                exists id c, (S (next_id p) < id)%nat /\
                  chatMessages (exec (settle o) p1)
                  = chatMessages p ++ [] ++ [entry id s_assistant c])).
  { destruct o as [e|e|data]; unfold exec, settle.
    - left. erewrite enviarMensagem_catch_last by exact Et.
      split; [reflexivity|]. split; [exact I|].
      exists (next_id p1), s_erro_conexao. split; [cbn; lia|].
      cbn [snd]. cbn. now rewrite <- app_assoc.
    - left. erewrite enviarMensagem_catch_last by exact Et.
      split; [reflexivity|]. split; [exact I|].
      exists (next_id p1), s_erro_conexao. split; [cbn; lia|].
      cbn [snd]. cbn. now rewrite <- app_assoc.
    - unfold catch, completes.
      destruct (enviarMensagem_then_cases p1 _ _ data Et) as [[c Ec]|[k Ek]].
      + left. rewrite Ec. split; [reflexivity|]. split; [reflexivity|].
        exists (next_id p1), c. split; [cbn; lia|].
        cbn [snd]. cbn. now rewrite <- app_assoc.
      + right. rewrite Ek. split; [cbn; discriminate|].
        erewrite enviarMensagem_catch_last
          by (cbn [chatMessages set_next_id set_chatMessages]; exact Eu).
        exists (k + next_id p1)%nat, s_erro_conexao. split; [cbn; lia|].
        reflexivity. }
  split; [rewrite Et; now rewrite <- app_assoc|].
  split; [reflexivity|]. split; [reflexivity|].
  split; [intros Hp; cbn; now rewrite (html_plain Hp)|].
  destruct Hsettle as [(_ & Hc & id & c & Hid & Ef)|(Hn & id & c & Hid & Ef)].
  - split; [exists id, c; left; exact Ef|].
    split; [intros _; exists id, c; exact Ef|].
    rewrite Ef. apply Hold; auto.
  - split; [exists id, c; right; exact Ef|].
    split; [intros Hc; contradiction|].
    rewrite Ef. apply Hold; auto.
Qed.

End ChatClaims.

(* ================================================================== *)
(** * Toasts and tooltips: counting the elements of a class *)
(* ================================================================== *)

Section Counting.

Variable f : node -> bool.

Lemma count_remove_first (l : list node) :
  length (filter f (remove_first f l)) = pred (length (filter f l)).
Proof.
  induction l as [|n l IH]; [reflexivity|].
  cbn [remove_first filter]. destruct (f n) eqn:E.
  - reflexivity.
  - cbn [filter]. now rewrite E.
Qed.

Lemma count_remove_first_other (g : node -> bool) (l : list node) :
  (length (filter f (remove_first g l)) <= length (filter f l))%nat.
Proof.
  induction l as [|n l IH]; [apply Nat.le_refl|].
  cbn [remove_first filter]. destruct (g n).
  - destruct (f n); cbn [length]; lia.
  - cbn [filter]. destruct (f n); cbn [length]; lia.
Qed.

Lemma count_map (g : node -> node) (l : list node) :
  (forall n, f (g n) = f n) ->
  length (filter f (map g l)) = length (filter f l).
Proof.
  intros Hg. induction l as [|n l IH]; [reflexivity|].
  cbn [map filter]. rewrite Hg. destruct (f n); cbn [length]; now rewrite IH.
Qed.

Lemma count_snoc (n : node) (l : list node) :
  length (filter f (l ++ [n]))
  = (length (filter f l) + if f n then 1 else 0)%nat.
Proof.
  rewrite filter_app, length_app. cbn [filter]. now destruct (f n).
Qed.

End Counting.

Section OverlayFacts.

Lemma has_class_In (cls : jsstring) (n : node) :
  has_class cls n = true <-> In cls (classList n).
Proof.
  unfold has_class. rewrite existsb_exists. split.
  - intros (t & Hin & Ht). apply eqb_string_true in Ht. now subst.
  - intros Hin. exists cls. split; [exact Hin | now apply eqb_string_true].
Qed.

Lemma has_class_add (cls other : jsstring) (n : node) :
  cls <> other ->
  has_class cls (classList_add other n) = has_class cls n.
Proof.
  intros Hne. apply eq_true_iff_eq. rewrite !has_class_In.
  unfold classList_add. cbn [classList].
  destruct (has_class other n); [reflexivity|].
  rewrite in_app_iff. cbn. intuition congruence.
Qed.

Lemma has_class_remove (cls other : jsstring) (n : node) :
  cls <> other ->
  has_class cls (classList_remove other n) = has_class cls n.
Proof.
  intros Hne. apply eq_true_iff_eq. rewrite !has_class_In.
  unfold classList_remove. cbn [classList]. rewrite filter_In.
  split; [tauto|]. intros Hin. split; [exact Hin|].
  apply negb_true_iff. destruct (eqb_string other cls) eqn:E; [|reflexivity].
  apply eqb_string_true in E. congruence.
Qed.

(** Whatever [tipo] is, the element made by [mostrarNotificacao] carries
    the class toast-notification. *)
Lemma toast_has_class (tipo : jsstring) :
  In s_toast_notification (class_tokens (s_toast_notification_toast_ ++ tipo)).
Proof.
  unfold class_tokens.
  unfold s_toast_notification_toast_. cbn [app split_classes is_ascii_whitespace
    Z.eqb Pos.eqb orb rev ordered_set existsb].
  now left.
Qed.

End OverlayFacts.

Section ToastClaims.

Context `{NativeText}.

Local Abbreviation toasts := (count_class s_toast_notification).

Lemma toasts_after_remover (p : page) :
  toasts (exec remover_existente p) = pred (toasts p).
Proof. unfold count_class. cbn. apply count_remove_first. Qed.

Lemma toasts_after_call (mensagem : jsstring) (tipo : option jsstring) (p : page) :
  toasts (step (Call mensagem tipo) p) = S (pred (toasts p)).
Proof.
  unfold count_class, step, exec, mostrarNotificacao, bind.
  cbn [remover_existente remove_selected modify createElement body_appendChild
       setTimeout snd fst body_children set_body_children set_next_id set_timers].
  rewrite count_snoc, count_remove_first.
  replace (has_class s_toast_notification _) with true; [lia|].
  symmetry. apply has_class_In. cbn [classList]. apply toast_has_class.
Qed.

Lemma toasts_after_fire (k : nat) (p : page) :
  (toasts (step (Fire k) p) <= toasts p)%nat.
Proof.
  unfold count_class, step, exec, fire, bind, gets. cbn [fst snd].
  destruct (nth_error (timers p) k) as [[d cb]|]; [|apply Nat.le_refl].
  destruct cb as [toast|toast|toast]; cbn.
  - rewrite count_map; [apply Nat.le_refl|].
    intros n. destruct (Nat.eqb (node_id n) toast); [|reflexivity].
    apply has_class_add. discriminate.
  - rewrite count_map; [apply Nat.le_refl|].
    intros n. destruct (Nat.eqb (node_id n) toast); [|reflexivity].
    apply has_class_remove. discriminate.
  - apply count_remove_first_other.
Qed.

Lemma toasts_step (e : event) (p : page) :
  (toasts p <= 1)%nat ->
  Forall (fun q => (toasts q <= 1)%nat) (instants e p)
  /\ (toasts (step e p) <= 1)%nat.
Proof.
  intros Hp. destruct e as [mensagem tipo|k].
  - assert (H1 : (toasts (step (Call mensagem tipo) p) <= 1)%nat)
      by (rewrite toasts_after_call; lia).
    split; [|exact H1]. cbn [instants].
    apply Forall_cons; [rewrite toasts_after_remover; lia|].
    apply Forall_cons; [exact H1 | apply Forall_nil].
  - assert (H1 : (toasts (step (Fire k) p) <= 1)%nat)
      by (pose proof (toasts_after_fire k p); lia).
    split; [|exact H1]. cbn [instants].
    apply Forall_cons; [exact H1 | apply Forall_nil].
Qed.

(** C8: on a page with at most one toast, whatever calls of
    [mostrarNotificacao] and firings of its timers follow, in any order, no
    state the page goes through has more than one toast; a call first
    leaves no toast and then exactly its own. *)
Theorem toast_at_most_one (es : list event) (p : page) :
  (count_class s_toast_notification p <= 1)%nat ->
  Forall (fun q => (count_class s_toast_notification q <= 1)%nat) (trace es p)
  /\ (forall mensagem tipo,
        count_class s_toast_notification (exec remover_existente p) = 0%nat
        /\ count_class s_toast_notification (step (Call mensagem tipo) p) = 1%nat).
Proof.
  intros Hp. split.
  - revert p Hp. induction es as [|e es IH]; intros p Hp; [constructor|].
    cbn [trace]. destruct (toasts_step e p Hp) as [Hi Hs].
    apply Forall_app. split; [exact Hi | now apply IH].
  - intros mensagem tipo.
    rewrite toasts_after_remover, toasts_after_call. lia.
Qed.

End ToastClaims.

Section TooltipClaims.

Context {number : Type} `{JsNumber number}.

Local Abbreviation tooltips := (count_class s_tooltip).

Lemma tooltips_after_esconder (q : page) :
  tooltips (exec esconderTooltip q) = pred (tooltips q).
Proof. unfold count_class. cbn. apply count_remove_first. Qed.

Lemma tooltips_after_enter (event_target : target number) (ch : Z)
      (texto : jsstring) (q : page) :
  dataset_tooltip event_target = Some (ch :: texto) ->
  count_class s_tooltip (exec (mostrarTooltip event_target) q)
  = S (count_class s_tooltip q).
Proof.
  intros E. unfold count_class, exec, mostrarTooltip. rewrite E.
  cbn [bind createElement body_appendChild update_node modify snd fst
       body_children set_body_children set_next_id next_id].
  rewrite count_map.
  - rewrite count_snoc. cbn. lia.
  - intros n. now destruct (Nat.eqb (node_id n) (next_id q)).
Qed.

(** C9 (amended): a hover on an element with a tooltip text that is not
    empty adds one tooltip and a leave removes one, so the two together
    leave as many tooltips as there were; on a page without tooltip, a
    hover followed by a leave leaves no tooltip, whatever the element; and a
    hover on an element whose tooltip text is absent or empty changes
    nothing. *)
Theorem tooltip_enter_leave (event_target : target number) (p : page) :
  (count_class s_tooltip p = 0%nat ->
   count_class s_tooltip (exec esconderTooltip (exec (mostrarTooltip event_target) p))
   = 0%nat)
  /\ (forall ch texto,
        dataset_tooltip event_target = Some (ch :: texto) ->
        count_class s_tooltip (exec (mostrarTooltip event_target) p)
        = S (count_class s_tooltip p)
        /\ count_class s_tooltip
             (exec esconderTooltip (exec (mostrarTooltip event_target) p))
           = count_class s_tooltip p)
  /\ (dataset_tooltip event_target = None \/ dataset_tooltip event_target = Some [] ->
      exec (mostrarTooltip event_target) p = p).
Proof.
  assert (H3 : dataset_tooltip event_target = None
               \/ dataset_tooltip event_target = Some [] ->
               exec (mostrarTooltip event_target) p = p).
  { intros [E|E]; unfold exec, mostrarTooltip; now rewrite E. }
  assert (H2 : forall ch texto,
             dataset_tooltip event_target = Some (ch :: texto) ->
             tooltips (exec (mostrarTooltip event_target) p) = S (tooltips p)
             /\ tooltips (exec esconderTooltip (exec (mostrarTooltip event_target) p))
                = tooltips p).
  { intros ch texto E. pose proof (tooltips_after_enter _ p E) as E1.
    split; [exact E1|]. rewrite tooltips_after_esconder, E1. reflexivity. }
  split; [|split; [exact H2 | exact H3]].
  intros Hp. destruct (dataset_tooltip event_target) as [[|ch texto]|] eqn:E.
  - rewrite H3 by now right. rewrite tooltips_after_esconder, Hp. reflexivity.
  - destruct (H2 ch texto eq_refl) as [_ ->]. exact Hp.
  - rewrite H3 by now left. rewrite tooltips_after_esconder, Hp. reflexivity.
Qed.


End TooltipClaims.

(** C9, as stated, fails: a leave removes one tooltip, the oldest.  When an
    element is hovered while the tooltip of another one, for instance of
    the element it lies in, is on the page, the leave removes that older
    tooltip and the new one stays. *)
Lemma nested_hover_leaves_a_tooltip :
  map node_id (body_children (exec (mostrarTooltip hovered) empty_page)) = [0%nat]
  /\ map node_id
       (body_children
          (exec esconderTooltip
             (exec (mostrarTooltip hovered_too)
                (exec (mostrarTooltip hovered) empty_page)))) = [1%nat]
  /\ count_class s_tooltip
       (exec esconderTooltip
          (exec (mostrarTooltip hovered_too)
             (exec (mostrarTooltip hovered) empty_page))) = 1%nat
  /\ ~ hover_and_leave_leaves_no_tooltip.
Proof.
  split; [vm_compute; reflexivity|].
  split; [vm_compute; reflexivity|].
  split; [vm_compute; reflexivity|].
  intros Hall.
  specialize (Hall hovered_too (exec (mostrarTooltip hovered) empty_page)).
  vm_compute in Hall. discriminate.
Qed.

(* ================================================================== *)
(** * The statements at sample inputs *)
(* ================================================================== *)

Lemma blank_closed (s : jsstring) : forallb is_white_space s = true -> blank s.
Proof. intros H ch Hin. rewrite forallb_forall in H. now apply H. Qed.

Lemma enviarMensagem_blank_witness :
  exec (@enviarMensagem Z) page_blank = page_blank.
Proof.
  apply (@enviarMensagem_blank Z page_blank).
  apply blank_closed. reflexivity.
Defined.

(** C2, as stated, fails: the key of the request object is mensagem; the
    text message does not occur in the body at all. *)
Lemma request_key_is_mensagem :
  map body (fetches page_sent)
  = [123 :: quote :: str "mensagem" ++ quote :: 58 :: quote :: str "hi" ++ [quote; 125]]
  /\ map body (fetches page_sent)
     <> [123 :: quote :: str "message" ++ quote :: 58 :: quote :: str "hi" ++ [quote; 125]]
  /\ forallb (fun r => negb (includes (str "message") (body r))) (fetches page_sent)
     = true.
Proof.
  split; [vm_compute; reflexivity|].
  split; [vm_compute; discriminate | vm_compute; reflexivity].
Qed.

Lemma enviarMensagem_request_witness :
  fetches (exec (@enviarMensagem Z) page_hi)
  = [{| url := str "/ai/chat";
        method := str "POST";
        headers := [(str "Content-Type", str "application/json")];
        body := 123 :: quote :: str "mensagem" ++ quote :: 58
                  :: quote :: str "hi" ++ [quote; 125] |}].
Proof.
  assert (Hne : trim (chatInput_value page_hi) <> []) by (vm_compute; discriminate).
  destruct (@enviarMensagem_request Z page_hi Hne) as [Hf _].
  rewrite Hf. vm_compute. reflexivity.
Defined.

Lemma settle_transport_failure_witness :
  map markup (chatMessages (exec (settle (Rejected failed_to_fetch)) page_sent))
  = [str "<p>hi</p>"; p_open ++ s_erro_conexao ++ p_close]
  /\ console_error (exec (settle (Rejected failed_to_fetch)) page_sent)
     = [(s_erro_no_chat, failed_to_fetch)].
Proof.
  assert (E : chatMessages page_sent
              = [entry 0 s_user (str "hi")] ++ [entry 1 s_assistant s_pensando])
    by (vm_compute; reflexivity).
  destruct (@settle_transport_failure Z _ page_sent _ _
              (Rejected failed_to_fetch) failed_to_fetch E (or_introl eq_refl))
    as (_ & Hc & Hl & _).
  rewrite Hc, Hl. split; vm_compute; reflexivity.
Defined.

(** C3, as stated, fails: a reply with the fields success and response is
    not read as a success; its success field is never looked at, and the
    line shown is the cross mark followed by undefined.  And the error line
    of a failure reply goes through the markdown substitutions like any
    other entry: it is not the glyph followed by the error text as
    received. *)
Lemma english_fields_are_not_read :
  map markup (chatMessages (exec (enviarMensagem_then data_success) page_sent))
  = [str "<p>hi</p>"; p_open ++ cross_ ++ str "undefined" ++ p_close]
  /\ map markup (chatMessages (exec (enviarMensagem_then data_success) page_sent))
     <> [str "<p>hi</p>"; str "<p>hi</p>"]
  /\ map markup (chatMessages (exec (enviarMensagem_then data_erro) page_sent))
     = [str "<p>hi</p>"; p_open ++ cross_ ++ str "<strong>x</strong>" ++ p_close]
  /\ forallb (fun n => negb (includes (cross_ ++ str "**x**") (markup n)))
       (chatMessages (exec (enviarMensagem_then data_erro) page_sent))
     = true.
Proof.
  split; [vm_compute; reflexivity|].
  split; [vm_compute; discriminate|].
  split; vm_compute; reflexivity.
Qed.

Lemma enviarMensagem_then_shapes_witness :
  map markup (chatMessages (exec (enviarMensagem_then data_sucesso) page_sent))
  = [str "<p>hi</p>"; str "<p><strong>oi</strong></p>"].
Proof.
  assert (E : chatMessages page_sent
              = [entry 0 s_user (str "hi")] ++ [entry 1 s_assistant s_pensando])
    by (vm_compute; reflexivity).
  destruct (@enviarMensagem_then_shapes Z _ page_sent _ _
              [(s_sucesso, VBool true); (s_resposta, VString (str "**oi**"))] E)
    as (_ & Hs & _).
  unfold exec, data_sucesso.
  rewrite (Hs (VBool true) (str "**oi**") eq_refl eq_refl eq_refl).
  vm_compute. reflexivity.
Defined.

(** C1, as stated, fails: the user entry holds the rendering of the text,
    so after sending a bold word no entry of the transcript contains the
    text that was typed. *)
Lemma user_entry_is_rendered :
  map markup (chatMessages (exec (@enviarMensagem Z) page_bold))
  = [str "<p><strong>a</strong></p>"; p_open ++ s_pensando ++ p_close]
  /\ forallb (fun n => negb (includes (str "**a**") (markup n)))
       (chatMessages (exec (@enviarMensagem Z) page_bold))
     = true.
Proof.
  split; vm_compute; reflexivity.
Qed.

Lemma enviarMensagem_then_settle_witness :
  map markup (chatMessages (exec (@enviarMensagem Z) page_hi))
  = [str "<p>hi</p>"; p_open ++ s_pensando ++ p_close]
  /\ ~ In 1%nat (map node_id
                   (chatMessages (exec (settle (Json data_sucesso))
                                       (exec (@enviarMensagem Z) page_hi)))).
Proof.
  assert (Hne : trim (chatInput_value page_hi) <> []) by (vm_compute; discriminate).
  assert (Hfresh : ids_fresh page_hi) by (intros n []).
  destruct (@enviarMensagem_then_settle Z _ page_hi (Json data_sucesso) Hne Hfresh)
    as (H1 & _ & _ & _ & _ & _ & H7).
  split; [rewrite H1; vm_compute; reflexivity | exact H7].
Defined.

Lemma toast_at_most_one_witness :
  Forall (fun q => (count_class s_toast_notification q <= 1)%nat)
         (trace two_toasts empty_page).
Proof.
  apply (@toast_at_most_one _ two_toasts empty_page).
  cbv. lia.
Defined.

Lemma tooltip_enter_leave_witness :
  count_class s_tooltip (exec esconderTooltip (exec (mostrarTooltip hovered) empty_page))
  = 0%nat.
Proof.
  apply (proj1 (@tooltip_enter_leave Z _ hovered empty_page)).
  reflexivity.
Defined.

(* ================================================================== *)
(** * The chat widget: overlapping requests and failing handlers *)
(* ================================================================== *)

Section ChatEdges.

Context {number : Type} `{JsNumber number}.

Lemma chatMessages_sent (p : page) :
  trim (chatInput_value p) <> [] ->
  chatMessages (exec (@enviarMensagem number) p)
  = (chatMessages p ++ [entry (next_id p) s_user (trim (chatInput_value p))])
      ++ [entry (S (next_id p)) s_assistant s_pensando]
  /\ next_id (exec (@enviarMensagem number) p) = S (S (next_id p))
  /\ console_error (exec (@enviarMensagem number) p) = console_error p.
Proof.
  intros Hne. unfold exec. rewrite enviarMensagem_sends by exact Hne.
  repeat split.
Qed.

Lemma get_field_field (key : jsstring) (data : value number) (q : page) :
  data <> VUndefined -> data <> VNull ->
  get_field key data q = (Ok (field key data), q).
Proof.
  intros Hu Hn. destruct data; try congruence; try reflexivity.
  cbn [get_field field]. now destruct (lookup key props).
Qed.

(** An outcome with a reply puts that reply in place of the last entry. *)
Lemma settle_reply (p : page) (t : list node) (x : node) (o : outcome number)
      (c : jsstring) :
  chatMessages p = t ++ [x] ->
  reply o = Some c ->
  chatMessages (exec (settle o) p) = t ++ [entry (next_id p) s_assistant c]
  /\ next_id (exec (settle o) p) = S (next_id p).
Proof.
  intros E Hr. unfold exec. destruct o as [e|e|data]; cbn [settle].
  - injection Hr as <-. erewrite enviarMensagem_catch_last by exact E. now split.
  - injection Hr as <-. erewrite enviarMensagem_catch_last by exact E. now split.
  - assert (Hu : data <> VUndefined) by (intros ->; discriminate).
    assert (Hn : data <> VNull) by (intros ->; discriminate).
    assert (Hr' : (if truthy (field s_sucesso data)
                   then match field s_resposta data with
                        | VString r => Some r
                        | _ => None
                        end
                   else match to_string (field s_erro data) with
                        | Some line => Some (cross_ ++ line)
                        | None => None
                        end) = Some c)
      by (destruct data; try congruence; exact Hr).
    unfold catch, enviarMensagem_then, bind.
    erewrite removeChild_lastChild_last by exact E.
    rewrite (get_field_field s_sucesso _ Hu Hn).
    destruct (truthy (field s_sucesso data)).
    + rewrite (get_field_field s_resposta _ Hu Hn).
      destruct (field s_resposta data); try discriminate.
      injection Hr' as ->. now split.
    + rewrite (get_field_field s_erro _ Hu Hn). unfold concat.
      destruct (to_string (field s_erro data)) as [line|]; [|discriminate].
      injection Hr' as <-. now split.
Qed.

(** X1: two requests in flight, each with an outcome the handlers have a
    reply for.  The handlers remove by position: the first response takes
    away the placeholder of the second request and puts the first reply
    there; the second response takes away the first reply and puts the
    second reply there.  The placeholder of the first request stays and the
    first reply is lost. *)
Theorem overlapping_requests (p : page) (v2 : jsstring) (o1 o2 : outcome number)
        (c1 c2 : jsstring) :
  trim (chatInput_value p) <> [] ->
  trim v2 <> [] ->
  reply o1 = Some c1 ->
  reply o2 = Some c2 ->
  let n := next_id p in
  let sent := exec (@enviarMensagem number)
                (set_chatInput_value v2 (exec (@enviarMensagem number) p)) in
  let shown := [entry n s_user (trim (chatInput_value p));
                entry (1 + n) s_assistant s_pensando;
                entry (2 + n) s_user (trim v2)] in
  chatMessages sent
  = chatMessages p ++ shown ++ [entry (3 + n) s_assistant s_pensando]
  /\ chatMessages (exec (settle o1) sent)
     = chatMessages p ++ shown ++ [entry (4 + n) s_assistant c1]
  /\ chatMessages (exec (settle o2) (exec (settle o1) sent))
     = chatMessages p ++ shown ++ [entry (5 + n) s_assistant c2].
Proof.
  intros Hne1 Hne2 Hr1 Hr2. cbv zeta.
  destruct (chatMessages_sent p Hne1) as (E1 & N1 & _).
  set (p1 := exec (@enviarMensagem number) p) in *.
  assert (Hne2' : trim (chatInput_value (set_chatInput_value v2 p1)) <> [])
    by exact Hne2.
  destruct (chatMessages_sent _ Hne2') as (E2 & N2 & _).
  set (p2 := exec (@enviarMensagem number) (set_chatInput_value v2 p1)) in *.
  cbn [chatMessages set_chatInput_value next_id chatInput_value] in E2, N2.
  rewrite E1, N1 in E2. rewrite N1 in N2.
  destruct (settle_reply p2 _ _ o1 E2 Hr1) as [E3 N3].
  rewrite N2 in E3, N3.
  set (p3 := exec (settle o1) p2) in *.
  destruct (settle_reply p3 _ _ o2 E3 Hr2) as [E4 _].
  rewrite N3 in E4.
  rewrite E2, E3, E4. cbn [Nat.add].
  repeat split; now rewrite <- !app_assoc.
Qed.

(** X2: a reply the [.then] callback cannot handle - JSON null, or a truthy
    sucesso without a string resposta - makes it throw after the placeholder
    was removed; the [.catch] callback then removes the user's own message
    as well, shows the connection error and logs a TypeError. *)
Theorem broken_reply_drops_user_entry (p : page) (data : value number) :
  trim (chatInput_value p) <> [] ->
  (data = VNull
   \/ exists props v,
        data = VObject props
        /\ lookup s_sucesso props = Some v /\ truthy v = true
        /\ forall s, lookup s_resposta props <> Some (VString s)) ->
  (exists id,
     chatMessages (exec (settle (Json data)) (exec (@enviarMensagem number) p))
     = chatMessages p ++ [entry id s_assistant s_erro_conexao])
  /\ console_error (exec (settle (Json data)) (exec (@enviarMensagem number) p))
     = console_error p ++ [(s_erro_no_chat, TypeError)].
Proof.
  intros Hne Hd.
  destruct (chatMessages_sent p Hne) as (E1 & N1 & C1).
  set (p1 := exec (@enviarMensagem number) p) in *.
  assert (Ht : exists k,
             enviarMensagem_then data p1
             = (Throw TypeError,
                set_next_id (k + next_id p1)
                  (set_chatMessages
                     (chatMessages p
                        ++ [entry (next_id p) s_user (trim (chatInput_value p))])
                     p1))).
  { unfold enviarMensagem_then, bind.
    erewrite removeChild_lastChild_last by exact E1.
    destruct Hd as [-> | (props & v & -> & Hs & Ht & Hr)].
    - exists 0%nat. reflexivity.
    - cbn [get_field]. rewrite Hs. unfold ret at 1. rewrite Ht.
      exists 1%nat.
      destruct (lookup s_resposta props) as [r|]; [|reflexivity].
      unfold ret at 1.
      destruct r; try reflexivity. now destruct (Hr s). }
  destruct Ht as [k Ek].
  unfold exec. cbn [settle]. unfold catch. rewrite Ek.
  erewrite enviarMensagem_catch_last
    by (cbn [chatMessages set_next_id set_chatMessages]; reflexivity).
  cbn [snd]. split.
  - exists (k + next_id p1)%nat. reflexivity.
  - cbn. now rewrite C1.
Qed.

(** X3: with an empty transcript both handlers throw at [removeChild]: the
    promise ends rejected, the page is as it was and nothing is logged. *)
Theorem settle_empty_transcript (p : page) (o : outcome number) :
  chatMessages p = [] ->
  settle o p = (Throw TypeError, p).
Proof.
  intros E.
  assert (Hr : removeChild_lastChild p = (Throw TypeError, p))
    by (unfold removeChild_lastChild, bind, gets; now rewrite E).
  assert (Hcatch : forall e, enviarMensagem_catch (number := number) e p
                             = (Throw TypeError, p))
    by (intros e; unfold enviarMensagem_catch, bind; now rewrite Hr).
  destruct o as [e|e|data]; cbn [settle]; try apply Hcatch.
  unfold catch, enviarMensagem_then, bind. rewrite Hr. apply Hcatch.
Qed.

Lemma trim_start_nil_blank (s : jsstring) : trim_start s = [] -> blank s.
Proof.
  induction s as [|ch s IH]; intros E c Hin; [destruct Hin|].
  cbn [trim_start] in E. destruct (is_white_space ch) eqn:Ew; [|discriminate].
  destruct Hin as [<-|Hin]; [exact Ew | now apply IH].
Qed.

Lemma trim_start_head (s r : jsstring) (ch : Z) :
  trim_start s = ch :: r -> is_white_space ch = false.
Proof.
  induction s as [|c s IH]; intros E; [discriminate|].
  cbn [trim_start] in E. destruct (is_white_space c) eqn:Ew; [now apply IH|].
  now injection E as <- _.
Qed.

Lemma trim_nil_blank (s : jsstring) : trim s = [] -> blank s.
Proof.
  unfold trim. intros E.
  assert (E' : trim_start (rev (trim_start s)) = []).
  { rewrite <- (rev_involutive (trim_start (rev (trim_start s)))), E.
    reflexivity. }
  apply trim_start_nil_blank in E'.
  apply trim_start_nil_blank.
  destruct (trim_start s) as [|ch r] eqn:Es; [reflexivity|].
  pose proof (trim_start_head _ Es) as Hw.
  rewrite (E' ch) in Hw; [discriminate|].
  apply -> in_rev. now left.
Qed.

(** X4: [enviarMensagem] leaves the page as it was exactly when the input is
    empty or white space only; any other input sends. *)
Theorem enviarMensagem_acts_iff (p : page) :
  exec (@enviarMensagem number) p = p <-> blank (chatInput_value p).
Proof.
  split.
  - intros E. apply trim_nil_blank.
    destruct (trim (chatInput_value p)) as [|ch r] eqn:Et; [reflexivity|].
    exfalso.
    assert (Hne : trim (chatInput_value p) <> []) by (rewrite Et; discriminate).
    unfold exec in E. rewrite enviarMensagem_sends in E by exact Hne.
    apply (f_equal (fun q => length (fetches q))) in E.
    cbn in E. rewrite length_app in E. cbn in E. lia.
  - intros Hb. unfold exec, enviarMensagem, bind, gets. cbn [fst snd].
    now rewrite (trim_blank Hb).
Qed.

(** X5: the formatter escapes nothing: text without backtick, asterisk or
    newline is assigned to [innerHTML] as it is, markup included, for any
    role. *)
Theorem adicionarMensagemChat_verbatim (role s : jsstring) (p : page) :
  plain s ->
  map markup (chatMessages (exec (adicionarMensagemChat role (@VString number s)) p))
  = map markup (chatMessages p) ++ [p_open ++ s ++ p_close].
Proof.
  intros Hp. unfold exec, adicionarMensagemChat, bind, createElement, modify.
  cbn [fst snd chatMessages set_chatMessages set_chat_scrolled_to_end set_next_id].
  rewrite map_app. cbn [map markup node_content]. now rewrite (html_plain Hp).
Qed.

End ChatEdges.

(* ================================================================== *)
(** * Formatting: nested and unclosed markers *)
(* ================================================================== *)

Section FormattingEdges.

Lemma no_char_tail (d ch : Z) (s : jsstring) : no_char d (ch :: s) -> no_char d s.
Proof. intros H c Hc. apply H. now right. Qed.

Lemma star_lazy_none (k : cset) (K : cont) (d : Z) (s : jsstring) (c : caps) :
  (forall s' c', no_char d s' -> K s' c' = None) ->
  no_char d s -> star_lazy k K s c = None.
Proof.
  intros HK. induction s as [|ch s IH]; intros Hs; cbn [star_lazy];
    rewrite (HK _ _ Hs); [reflexivity|].
  destruct (cset_mem k ch); [|reflexivity].
  apply IH. now apply no_char_tail in Hs.
Qed.

Lemma star_greedy_none (k : cset) (K : cont) (d : Z) (s : jsstring) (c : caps) :
  (forall s' c', no_char d s' -> K s' c' = None) ->
  no_char d s -> star_greedy k K s c = None.
Proof.
  intros HK. induction s as [|ch s IH]; intros Hs; cbn [star_greedy];
    [now apply HK|].
  destruct (cset_mem k ch); [|now apply HK].
  rewrite IH by now apply no_char_tail in Hs. cbn. now apply HK.
Qed.

(** A pattern cannot match inside a text free of a character when what
    follows the pattern needs that character. *)
Lemma m_none (d : Z) (r : regex) :
  forall (K : cont) (s : jsstring) (c : caps),
    (forall s' c', no_char d s' -> K s' c' = None) ->
    no_char d s -> m r K s c = None.
Proof.
  induction r as [k|r1 IH1 r2 IH2|n r IH|g k|k]; intros K s c HK Hs; cbn [m].
  - destruct s as [|ch s]; [reflexivity|].
    destruct (cset_mem k ch); [|reflexivity].
    apply HK. now apply no_char_tail in Hs.
  - apply IH1; [|exact Hs]. intros s' c' Hs'. now apply IH2.
  - apply IH; [|exact Hs]. intros s' c' Hs'. now apply HK.
  - destruct g; [now apply star_greedy_none with d | now apply star_lazy_none with d].
  - destruct s as [|ch s]; [now apply HK|].
    destruct (cset_mem k ch); [|now apply HK].
    rewrite (HK s c) by now apply no_char_tail in Hs. cbn. now apply HK.
Qed.

Lemma sym_none (d : Z) (r : regex) (K : cont) (s : jsstring) (c : caps) :
  no_char d s -> m (Cat (Sym (Lit d)) r) K s c = None.
Proof.
  intros Hs. cbn [m cset_mem]. destruct s as [|ch s]; [reflexivity|].
  now rewrite (proj2 (Z.eqb_neq ch d)) by (apply Hs; now left).
Qed.

Lemma m_cat (r1 r2 : regex) (K : cont) (s : jsstring) (c : caps) :
  m (Cat r1 r2) K s c = m r1 (m r2 K) s c.
Proof. reflexivity. Qed.

Lemma exec_bold_unclosed (x : jsstring) :
  no_char asterisk x -> exec_at re_bold (asterisk :: asterisk :: x) = None.
Proof.
  intros Hx. unfold exec_at, re_bold.
  rewrite !m_sym by apply Z.eqb_refl. rewrite m_cat.
  apply m_none with asterisk; [|exact Hx].
  intros s' c' Hs'. now apply sym_none.
Qed.

Lemma replace_bold_unclosed (x : jsstring) :
  no_char asterisk x ->
  replace_bold (asterisk :: asterisk :: x) = asterisk :: asterisk :: x.
Proof.
  intros Hx. unfold replace_bold.
  rewrite replace_all_nomatch by now apply exec_bold_unclosed.
  rewrite replace_all_nomatch.
  - do 2 f_equal. exact (replace_bold_id Hx).
  - unfold exec_at, re_bold. rewrite m_sym by apply Z.eqb_refl.
    now apply sym_none.
Qed.

Lemma exec_code_unclosed (x : jsstring) :
  no_char backtick x -> exec_at re_code (backtick :: x) = None.
Proof.
  intros Hx. unfold exec_at, re_code.
  rewrite m_sym by apply Z.eqb_refl. rewrite m_cat.
  apply m_none with backtick; [|exact Hx].
  intros s' c' Hs'. cbn [m cset_mem]. destruct s' as [|ch s']; [reflexivity|].
  now rewrite (proj2 (Z.eqb_neq ch backtick)) by (apply Hs'; now left).
Qed.

Lemma replace_code_unclosed (x : jsstring) :
  no_char backtick x -> replace_code (backtick :: x) = backtick :: x.
Proof.
  intros Hx. unfold replace_code.
  rewrite replace_all_nomatch by now apply exec_code_unclosed.
  f_equal. exact (replace_code_id Hx).
Qed.

Lemma exec_fence_unclosed (x : jsstring) :
  no_char backtick x -> exec_at re_fence (fence ++ x) = None.
Proof.
  intros Hx. unfold exec_at, re_fence, fence. cbn [app].
  rewrite !m_sym by apply Z.eqb_refl. rewrite m_cat.
  apply m_none with backtick; [|exact Hx].
  intros s' c' Hs'. rewrite m_cat. apply m_none with backtick; [|exact Hs'].
  intros s'' c'' Hs''. rewrite m_cat. apply m_none with backtick; [|exact Hs''].
  intros s3 c3 Hs3. now apply sym_none.
Qed.

Lemma replace_fence_unclosed (x : jsstring) :
  no_char backtick x -> replace_fence (fence ++ x) = fence ++ x.
Proof.
  intros Hx. unfold replace_fence, fence. cbn [app].
  rewrite replace_all_nomatch by (now apply (exec_fence_unclosed Hx)).
  rewrite replace_all_nomatch.
  - rewrite replace_all_nomatch.
    + do 3 f_equal. exact (replace_fence_id Hx).
    + apply exec_fence_single. destruct x as [|ch x]; [exact I|].
      apply Hx. now left.
  - unfold exec_at, re_fence. rewrite !m_sym by apply Z.eqb_refl.
    now apply sym_none.
Qed.

(** X6: the later substitutions run inside a fenced block too: a bold span in
    the body of a block comes out as strong emphasis inside the
    preformatted element. *)
Theorem html_bold_inside_fence (lang x : jsstring) :
  words lang -> no_char asterisk x -> no_char backtick x -> single_line x ->
  html (fence ++ lang ++ newline
          :: (asterisk :: asterisk :: x ++ [asterisk; asterisk]) ++ fence)
  = pre_open ++ strong_open ++ x ++ strong_close ++ pre_close.
Proof.
  intros Hw Ha Hb Hl. unfold html.
  rewrite replace_fence_newline;
    [|exact Hw
     |repeat apply no_char_cons; try discriminate;
      apply no_char_app; [exact Hb | now apply no_char_closed]].
  cbn [app]. rewrite <- app_assoc. cbn [app].
  rewrite replace_bold_span;
    [|now apply no_char_closed | exact Ha | exact Hl].
  rewrite (@replace_bold_id pre_close) by now apply no_char_closed.
  rewrite replace_code_id
    by (repeat apply no_char_app; try assumption; now apply no_char_closed).
  rewrite replace_newline_flat_map. apply flat_map_newline_id.
  repeat apply no_char_app; try (now apply no_char_closed).
  now apply single_line_no_newline.
Qed.

(** X7: markers that are never closed: two asterisks or one backtick before a
    text without asterisk and backtick are left as typed; an opening fence
    is not: its first two backticks become an empty code span and the third
    is left. *)
Theorem html_unclosed_markers (x : jsstring) :
  no_char asterisk x -> no_char backtick x ->
  html (asterisk :: asterisk :: x) = asterisk :: asterisk :: flat_map newline_to_br x
  /\ html (backtick :: x) = backtick :: flat_map newline_to_br x
  /\ html (fence ++ x)
     = code_open ++ code_close ++ backtick :: flat_map newline_to_br x.
Proof.
  intros Ha Hb. unfold html. repeat split.
  - rewrite replace_fence_id
      by (repeat apply no_char_cons; try discriminate; exact Hb).
    rewrite (replace_bold_unclosed Ha).
    rewrite replace_code_id
      by (repeat apply no_char_cons; try discriminate; exact Hb).
    now rewrite replace_newline_flat_map.
  - assert (Ef : replace_fence (backtick :: x) = backtick :: x).
    { unfold replace_fence. rewrite replace_all_nomatch.
      - f_equal. exact (replace_fence_id Hb).
      - apply exec_fence_single. destruct x as [|ch x]; [exact I|].
        apply Hb. now left. }
    rewrite Ef.
    rewrite replace_bold_id
      by (apply no_char_cons; [discriminate | exact Ha]).
    rewrite (replace_code_unclosed Hb).
    now rewrite replace_newline_flat_map.
  - rewrite (replace_fence_unclosed Hb).
    rewrite replace_bold_id
      by (apply no_char_app; [now apply no_char_closed | exact Ha]).
    assert (Hnil : no_char backtick []) by (intros ch []).
    assert (Hsl : single_line []) by (intros ch []).
    pose proof (@replace_code_span [] [] (backtick :: x) Hnil Hnil Hsl) as Ec.
    cbn [app] in Ec. unfold fence. cbn [app]. rewrite Ec.
    rewrite (replace_code_unclosed Hb).
    now rewrite replace_newline_flat_map.
Qed.

End FormattingEdges.

(* ================================================================== *)
(** * Toasts: life cycle and stale timers *)
(* ================================================================== *)

Section ToastEdges.

Context `{NativeText}.

Lemma remove_first_In (f : node -> bool) (l : list node) (n : node) :
  In n (remove_first f l) -> In n l.
Proof.
  induction l as [|a l IH]; cbn [remove_first]; [tauto|].
  destruct (f a); cbn [In]; intuition.
Qed.

Lemma remove_first_none (f : node -> bool) (l : list node) :
  (forall n, In n l -> f n = false) -> remove_first f l = l.
Proof.
  induction l as [|a l IH]; intros Hf; [reflexivity|].
  cbn [remove_first]. rewrite (Hf a) by now left.
  f_equal. apply IH. intros n Hn. apply Hf. now right.
Qed.

Lemma remove_first_snoc (f : node -> bool) (l : list node) (x : node) :
  (forall n, In n l -> f n = false) -> f x = true ->
  remove_first f (l ++ [x]) = l.
Proof.
  induction l as [|a l IH]; intros Hf Hx; cbn [app remove_first].
  - now rewrite Hx.
  - rewrite (Hf a) by now left. f_equal. apply IH; [|exact Hx].
    intros n Hn. apply Hf. now right.
Qed.

Lemma map_update_other (id : nat) (g : node -> node) (l : list node) :
  (forall n, In n l -> node_id n <> id) ->
  map (fun n => if Nat.eqb (node_id n) id then g n else n) l = l.
Proof.
  induction l as [|a l IH]; intros Hl; [reflexivity|].
  cbn [map]. rewrite (proj2 (Nat.eqb_neq _ _)) by (apply Hl; now left).
  f_equal. apply IH. intros n Hn. apply Hl. now right.
Qed.

Lemma count_zero_none (f : node -> bool) (l : list node) :
  length (filter f l) = 0%nat -> forall n, In n l -> f n = false.
Proof.
  induction l as [|a l IH]; intros E n Hn; [destruct Hn|].
  cbn [filter] in E. destruct (f a) eqn:Ea; [discriminate|].
  destruct Hn as [<-|Hn]; [exact Ea | now apply IH].
Qed.

(** A callback of a toast that is no longer on the page changes no
    element. *)
Lemma run_callback_absent (cb : callback) (id : nat) (p : page) :
  (cb = ToastShow id \/ cb = ToastHide id \/ cb = ToastRemove id) ->
  (forall n, In n (body_children p) -> node_id n <> id) ->
  body_children (exec (run_callback cb) p) = body_children p.
Proof.
  intros Hcb Hid. unfold exec.
  destruct Hcb as [-> | [-> | ->]]; cbn.
  - now apply map_update_other.
  - now apply map_update_other.
  - apply remove_first_none. intros n Hn. apply Nat.eqb_neq. now apply Hid.
Qed.

(** X8: the life of a toast that is not replaced: shown, hidden, removed.
    After its three timers the page has the elements it had before the
    call, less the toast the call replaced, and no timer is left. *)
Theorem toast_lifecycle (mensagem : jsstring) (tipo : option jsstring) (p : page) :
  timers p = [] -> body_fresh p ->
  body_children (step (Fire 0) (step (Fire 0) (step (Fire 0)
                   (step (Call mensagem tipo) p))))
  = remove_first (has_class s_toast_notification) (body_children p)
  /\ timers (step (Fire 0) (step (Fire 0) (step (Fire 0)
               (step (Call mensagem tipo) p)))) = [].
Proof.
  intros Ht Hf.
  assert (Hother : forall n,
            In n (remove_first (has_class s_toast_notification) (body_children p)) ->
            node_id n <> next_id p).
  { intros n Hn. apply remove_first_In in Hn. specialize (Hf n Hn). lia. }
  unfold step, exec, fire, mostrarNotificacao, bind, gets.
  cbn [remover_existente remove_selected modify createElement body_appendChild
       setTimeout snd fst body_children set_body_children set_next_id set_timers
       timers next_id].
  rewrite Ht.
  cbn [app nth_error remove_nth timer_callback run_callback update_node bind
       modify setTimeout snd fst body_children set_body_children set_timers
       timers remove_node].
  split; [|reflexivity].
  set (B := remove_first (has_class s_toast_notification) (body_children p)) in *.
  assert (Emap : forall g,
            map (fun n => if Nat.eqb (node_id n) (next_id p) then g n else n) B = B)
    by (intros g; now apply map_update_other).
  rewrite !map_app, !Emap.
  cbn [map node_id]. rewrite !Nat.eqb_refl.
  apply remove_first_snoc.
  - intros n Hn. apply Nat.eqb_neq. now apply Hother.
  - cbn [node_id classList_remove classList_add]. apply Nat.eqb_refl.
Qed.

End ToastEdges.

Section ToastReplaced.

Context `{NativeText}.

Lemma body_after_call (mensagem : jsstring) (tipo : option jsstring) (p : page) :
  body_children (step (Call mensagem tipo) p)
  = remove_first (has_class s_toast_notification) (body_children p)
      ++ [toast_node (next_id p) mensagem
            (match tipo with Some t => t | None => s_info end)]
  /\ next_id (step (Call mensagem tipo) p) = S (next_id p).
Proof. split; reflexivity. Qed.

Lemma toast_node_is_toast (id : nat) (mensagem tipo : jsstring) :
  has_class s_toast_notification (toast_node id mensagem tipo) = true.
Proof. apply has_class_In. cbn [classList toast_node]. apply toast_has_class. Qed.

(** The icon of a [tipo] that is no key of the table but names a property
    the table inherits, and of one that names none. *)
Lemma icones_inherited :
  icones s_constructor = native_function_text s_Object
  /\ icones (str "toString") = native_function_text (str "toString")
  /\ icones s___proto__ = s_object
  /\ icones (str "warning") = [].
Proof. repeat split. Qed.

(** X9: when a second notification replaces a first one, the timers the first
    one left behind find no element: whichever of them fires, the page keeps
    its elements, among them exactly one toast, the second, whatever its
    [tipo]. *)
Theorem replaced_toast_timers_are_harmless
        (m1 m2 : jsstring) (t1 t2 : option jsstring) (cb : callback) (p : page) :
  (count_class s_toast_notification p <= 1)%nat ->
  body_fresh p ->
  cb = ToastShow (next_id p) \/ cb = ToastHide (next_id p)
  \/ cb = ToastRemove (next_id p) ->
  body_children (exec (run_callback cb) (step (Call m2 t2) (step (Call m1 t1) p)))
  = remove_first (has_class s_toast_notification) (body_children p)
      ++ [toast_node (S (next_id p)) m2 (match t2 with Some t => t | None => s_info end)]
  /\ count_class s_toast_notification
       (exec (run_callback cb) (step (Call m2 t2) (step (Call m1 t1) p))) = 1%nat.
Proof.
  intros Hc Hf Hcb.
  destruct (body_after_call m1 t1 p) as [B1 N1].
  destruct (body_after_call m2 t2 (step (Call m1 t1) p)) as [B2 N2].
  rewrite B1, N1 in B2.
  set (B := remove_first (has_class s_toast_notification) (body_children p)) in *.
  assert (HB : forall n, In n B -> has_class s_toast_notification n = false).
  { apply count_zero_none. unfold B. rewrite count_remove_first.
    unfold count_class in Hc. lia. }
  rewrite remove_first_snoc in B2 by (exact HB || apply toast_node_is_toast).
  assert (E : body_children
                (exec (run_callback cb) (step (Call m2 t2) (step (Call m1 t1) p)))
              = body_children (step (Call m2 t2) (step (Call m1 t1) p))).
  { apply run_callback_absent with (next_id p); [exact Hcb|].
    rewrite B2. intros n Hn. apply in_app_iff in Hn. destruct Hn as [Hn|[<-|[]]].
    - apply remove_first_In in Hn. specialize (Hf n Hn). lia.
    - cbn. lia. }
  split; [now rewrite E, B2|].
  unfold count_class. rewrite E, B2, count_snoc, toast_node_is_toast.
  rewrite (proj2 (length_zero_iff_nil _)); [reflexivity|].
  clear - HB. induction B as [|a B IH]; [reflexivity|].
  cbn [filter]. rewrite (HB a) by now left.
  apply IH. intros n Hn. apply HB. now right.
Qed.

End ToastReplaced.

Section TooltipEdges.

Context {number : Type} `{JsNumber number}.

(** X10: tooltips are removed one at a time: two hovers without a leave between
    them put two tooltips on the page and the next leave removes only one;
    and a leave on a page without tooltip changes nothing. *)
Theorem tooltip_leak (e1 e2 : target number) (ch1 ch2 : Z) (t1 t2 : jsstring)
        (p : page) :
  count_class s_tooltip p = 0%nat ->
  dataset_tooltip e1 = Some (ch1 :: t1) ->
  dataset_tooltip e2 = Some (ch2 :: t2) ->
  count_class s_tooltip (exec (mostrarTooltip e2) (exec (mostrarTooltip e1) p)) = 2%nat
  /\ count_class s_tooltip
       (exec esconderTooltip (exec (mostrarTooltip e2) (exec (mostrarTooltip e1) p)))
     = 1%nat
  /\ exec esconderTooltip p = p.
Proof.
  intros Hp E1 E2.
  assert (H2 : count_class s_tooltip
                 (exec (mostrarTooltip e2) (exec (mostrarTooltip e1) p)) = 2%nat)
    by (rewrite (tooltips_after_enter _ _ E2), (tooltips_after_enter _ _ E1), Hp;
        reflexivity).
  split; [exact H2|]. split.
  - rewrite tooltips_after_esconder, H2. reflexivity.
  - unfold count_class in Hp. destruct p as [v msgs sc bc tm fs ce ni].
    cbn in *. rewrite remove_first_none; [reflexivity|].
    now apply count_zero_none.
Qed.

End TooltipEdges.

Section ClipboardFacts.

Context `{NativeText}.

(** X11: [copiarParaClipboard], once the write is settled, on a page with at
    most one toast: the page has exactly one toast, the new one, which is
    the success toast when the text was written and the error toast when
    the write was refused; only a refusal is written to the console. *)
Theorem copiarParaClipboard_settled (o : write_outcome) (p : page) :
  (count_class s_toast_notification p <= 1)%nat ->
  fst (copiarParaClipboard_settle o p) = Ok tt
  /\ count_class s_toast_notification (exec (copiarParaClipboard_settle o) p) = 1%nat
  /\ body_children (exec (copiarParaClipboard_settle o) p)
     = remove_first (has_class s_toast_notification) (body_children p)
         ++ [match o with
             | Written => toast_node (next_id p) s_copiado s_success
             | Refused _ => toast_node (next_id p) s_erro_ao_copiar s_error
             end]
  /\ console_error (exec (copiarParaClipboard_settle o) p)
     = console_error p
         ++ match o with
            | Written => []
            | Refused err => [(s_erro_ao_copiar_, err)]
            end
  /\ has_class s_toast_success (toast_node (next_id p) s_copiado s_success) = true
  /\ has_class s_toast_error (toast_node (next_id p) s_erro_ao_copiar s_error) = true.
Proof.
  intros Hc.
  assert (Hb : body_children (exec (copiarParaClipboard_settle o) p)
               = remove_first (has_class s_toast_notification) (body_children p)
                   ++ [match o with
                       | Written => toast_node (next_id p) s_copiado s_success
                       | Refused _ => toast_node (next_id p) s_erro_ao_copiar s_error
                       end])
    by (destruct o; reflexivity).
  split; [destruct o; reflexivity|]. split; [|split; [exact Hb|split]].
  - unfold count_class in *. rewrite Hb, count_snoc, count_remove_first.
    destruct o; rewrite toast_node_is_toast; lia.
  - destruct o; cbn; [now rewrite app_nil_r | reflexivity].
  - split; reflexivity.
Qed.

End ClipboardFacts.

(* ================================================================== *)
(** * Opening and closing the chat *)
(* ================================================================== *)

Section ToggleFacts.

Lemma has_class_add_same (cls : jsstring) (n : node) :
  has_class cls (classList_add cls n) = true.
Proof.
  apply has_class_In. unfold classList_add. cbn [classList].
  destruct (has_class cls n) eqn:E; [now apply has_class_In|].
  apply in_app_iff. right. now left.
Qed.

Lemma has_class_remove_same (cls : jsstring) (n : node) :
  has_class cls (classList_remove cls n) = false.
Proof.
  destruct (has_class cls (classList_remove cls n)) eqn:E; [|reflexivity].
  apply has_class_In in E. unfold classList_remove in E. cbn [classList] in E.
  apply filter_In in E. destruct E as [_ E].
  apply negb_true_iff in E.
  assert (Hr : eqb_string cls cls = true) by now apply eqb_string_true.
  congruence.
Qed.

Lemma has_class_toggle (cls other : jsstring) (n : node) :
  has_class other (classList_toggle cls n)
  = if eqb_string other cls then negb (has_class cls n) else has_class other n.
Proof.
  unfold classList_toggle. destruct (eqb_string other cls) eqn:E.
  - apply eqb_string_true in E. subst other.
    destruct (has_class cls n) eqn:Ec; cbn [negb].
    + apply has_class_remove_same.
    + apply has_class_add_same.
  - assert (Hne : other <> cls)
      by (intros ->; rewrite (proj2 (eqb_string_true cls cls) eq_refl) in E;
          discriminate).
    destruct (has_class cls n); [now apply has_class_remove | now apply has_class_add].
Qed.

Lemma toggleChat_flips_aux (w : widget) :
  is_open (toggleChat w) = negb (is_open w)
  /\ chat_toggle_display (toggleChat w)
     = Some (if is_open (toggleChat w) then s_none else s_flex)
  /\ chatInput_focused (toggleChat w) = is_open (toggleChat w) || chatInput_focused w
  /\ forall cls, cls <> s_active ->
       has_class cls (chatContainer (toggleChat w)) = has_class cls (chatContainer w).
Proof.
  assert (Ho : has_class s_active (classList_toggle s_active (chatContainer w))
               = negb (is_open w)).
  { rewrite has_class_toggle.
    now rewrite (proj2 (eqb_string_true s_active s_active) eq_refl). }
  unfold is_open, toggleChat in *. rewrite Ho.
  destruct (has_class s_active (chatContainer w)) eqn:Ea; cbn [negb];
    cbn [chatContainer chat_toggle_display chatInput_focused]; rewrite Ho;
    (repeat split; try reflexivity);
    intros cls Hne; rewrite has_class_toggle;
    destruct (eqb_string cls s_active) eqn:E; try reflexivity;
    apply eqb_string_true in E; contradiction.
Qed.

(** X12: [toggleChat] flips the chat between open and closed and touches no
    other class of the container; afterwards the launcher is hidden exactly
    when the chat is open; opening puts the focus on the input and closing
    does not take it away. *)
Theorem toggleChat_flips (w : widget) :
  is_open (toggleChat w) = negb (is_open w)
  /\ chat_toggle_display (toggleChat w)
     = Some (if is_open (toggleChat w) then s_none else s_flex)
  /\ chatInput_focused (toggleChat w) = is_open (toggleChat w) || chatInput_focused w
  /\ forall cls, cls <> s_active ->
       has_class cls (chatContainer (toggleChat w)) = has_class cls (chatContainer w).
Proof. apply toggleChat_flips_aux. Qed.

(** X13: two calls of [toggleChat] leave every class of the container as it
    was and the launcher hidden exactly when the chat was open before; but
    the focus is on the input afterwards, whether the chat ends open or
    closed. *)
Theorem toggleChat_twice (w : widget) :
  (forall cls, has_class cls (chatContainer (toggleChat (toggleChat w)))
               = has_class cls (chatContainer w))
  /\ chat_toggle_display (toggleChat (toggleChat w))
     = Some (if is_open w then s_none else s_flex)
  /\ chatInput_focused (toggleChat (toggleChat w)) = true.
Proof.
  destruct (toggleChat_flips_aux w) as (O1 & D1 & F1 & C1).
  destruct (toggleChat_flips_aux (toggleChat w)) as (O2 & D2 & F2 & C2).
  rewrite O1, negb_involutive in O2. repeat split.
  - intros cls. destruct (eqb_string cls s_active) eqn:E.
    + apply eqb_string_true in E. subst cls. exact O2.
    + assert (Hne : cls <> s_active)
        by (intros ->; rewrite (proj2 (eqb_string_true s_active s_active) eq_refl) in E;
            discriminate).
      now rewrite C2, C1.
  - now rewrite D2, O2.
  - rewrite F2, F1, O2, O1. now destruct (is_open w).
Qed.

End ToggleFacts.

(* ================================================================== *)
(** * The entrance animation of the cards *)
(* ================================================================== *)

Section CardFacts.

Lemma update_at_app (pre suf : list styled) (e : styled) (f : styled -> styled) :
  update_at (length pre) f (pre ++ e :: suf) = pre ++ f e :: suf.
Proof.
  induction pre as [|a pre IH]; [reflexivity|].
  cbn [length app update_at]. now rewrite IH.
Qed.

Lemma nth_error_update_at (f : styled -> styled) (l : list styled) (pos pos' : nat) :
  nth_error (update_at pos f l) pos'
  = if Nat.eqb pos pos' then option_map f (nth_error l pos') else nth_error l pos'.
Proof.
  revert pos pos'. induction l as [|a l IH]; intros pos pos'.
  - destruct pos, pos'; cbn; try reflexivity. now destruct (Nat.eqb pos pos').
  - destruct pos as [|pos], pos' as [|pos']; cbn [update_at nth_error Nat.eqb];
      try reflexivity.
    apply IH.
Qed.

Lemma forEach_spec (cards : list nat) (index : nat) (st : stage) :
  elements (forEach cards index st)
  = fold_left (fun els c => update_at c hide els) cards (elements st)
  /\ reveal_timers (forEach cards index st)
     = reveal_timers st
         ++ map (fun ic => {| reveal_delay := Z.of_nat (fst ic) * 100;
                              reveal_target := snd ic |})
                (combine (seq index (length cards)) cards).
Proof.
  revert index st. induction cards as [|c cards IH]; intros index st.
  - cbn. now rewrite app_nil_r.
  - cbn [forEach fold_left length seq combine map].
    destruct (IH (S index)
                {| elements := update_at c hide (elements st);
                   reveal_timers :=
                     reveal_timers st ++ [{| reveal_delay := Z.of_nat index * 100;
                                             reveal_target := c |}] |}) as [E T].
    rewrite E, T. cbn [elements reveal_timers fst snd].
    split; [reflexivity | now rewrite <- app_assoc].
Qed.

Lemma hide_selected (pre suf : list styled) :
  fold_left (fun els c => update_at c hide els)
            (querySelectorAll suf (length pre)) (pre ++ suf)
  = pre ++ map (fun e => if is_card e then hide e else e) suf.
Proof.
  revert pre. induction suf as [|e suf IH]; intros pre; [reflexivity|].
  cbn [querySelectorAll map]. destruct (is_card e).
  - cbn [fold_left]. rewrite update_at_app.
    replace (pre ++ hide e :: suf) with ((pre ++ [hide e]) ++ suf)
      by (now rewrite <- app_assoc).
    replace (S (length pre)) with (length (pre ++ [hide e]))
      by (rewrite length_app; cbn; lia).
    rewrite IH. now rewrite <- app_assoc.
  - replace (pre ++ e :: suf) with ((pre ++ [e]) ++ suf)
      by (now rewrite <- app_assoc).
    replace (S (length pre)) with (length (pre ++ [e]))
      by (rewrite length_app; cbn; lia).
    rewrite IH. now rewrite <- app_assoc.
Qed.

Lemma querySelectorAll_In (els : list styled) (p0 pos : nat) (e : styled) :
  nth_error els pos = Some e -> is_card e = true ->
  In (p0 + pos)%nat (querySelectorAll els p0).
Proof.
  revert p0 pos. induction els as [|a els IH]; intros p0 pos E Hc.
  - destruct pos; discriminate.
  - cbn [querySelectorAll]. destruct pos as [|pos]; cbn [nth_error] in E.
    + injection E as ->. rewrite Hc, Nat.add_0_r. now left.
    + replace (p0 + S pos)%nat with (S p0 + pos)%nat by lia.
      destruct (is_card a); [right|]; now apply IH.
Qed.

Lemma querySelectorAll_inv (els : list styled) (p0 q : nat) :
  In q (querySelectorAll els p0) ->
  exists pos e, q = (p0 + pos)%nat /\ nth_error els pos = Some e /\ is_card e = true.
Proof.
  revert p0. induction els as [|a els IH]; intros p0 Hin; [destruct Hin|].
  cbn [querySelectorAll] in Hin. destruct (is_card a) eqn:Ea.
  - destruct Hin as [<-|Hin].
    + exists 0%nat, a. rewrite Nat.add_0_r. now repeat split.
    + destruct (IH _ Hin) as (pos & e & -> & E & Hc).
      exists (S pos), e. repeat split; [lia | exact E | exact Hc].
  - destruct (IH _ Hin) as (pos & e & -> & E & Hc).
    exists (S pos), e. repeat split; [lia | exact E | exact Hc].
Qed.

Lemma map_combine (A B : Type) (l : list A) (l' : list B) :
  length l = length l' ->
  map fst (combine l l') = l /\ map snd (combine l l') = l'.
Proof.
  revert l'. induction l as [|a l IH]; intros [|b l'] E; try discriminate;
    [now split|].
  cbn in E. injection E as E. destruct (IH _ E) as [E1 E2].
  cbn. now rewrite E1, E2.
Qed.

Lemma length_querySelectorAll (els : list styled) (p0 : nat) :
  length (querySelectorAll els p0) = length (filter is_card els).
Proof.
  revert p0. induction els as [|a l IH]; intros p0; [reflexivity|].
  cbn [querySelectorAll filter]. destruct (is_card a); cbn [length]; now rewrite IH.
Qed.

Lemma animarCardsEntrada_spec (st : stage) :
  elements (animarCardsEntrada st)
  = map (fun e => if is_card e then hide e else e) (elements st)
  /\ reveal_timers (animarCardsEntrada st)
     = reveal_timers st
         ++ map (fun ic => {| reveal_delay := Z.of_nat (fst ic) * 100;
                              reveal_target := snd ic |})
                (combine (seq 0 (length (querySelectorAll (elements st) 0)))
                         (querySelectorAll (elements st) 0)).
Proof.
  unfold animarCardsEntrada.
  destruct (forEach_spec (querySelectorAll (elements st) 0) 0 st) as [E T].
  split; [|exact T]. rewrite E. apply (hide_selected []).
Qed.

(** X14: [animarCardsEntrada] hides every card and nothing else, and schedules
    one timer per card, in document order, the [i]-th of them [100 * i]
    milliseconds after the call. *)
Theorem animarCardsEntrada_hides (st : stage) :
  elements (animarCardsEntrada st)
  = map (fun e => if is_card e then hide e else e) (elements st)
  /\ exists new,
       reveal_timers (animarCardsEntrada st) = reveal_timers st ++ new
       /\ map reveal_target new = querySelectorAll (elements st) 0
       /\ map reveal_delay new
          = map (fun i => Z.of_nat i * 100) (seq 0 (length new))
       /\ length new = length (filter is_card (elements st)).
Proof.
  destruct (animarCardsEntrada_spec st) as [E T]. split; [exact E|].
  eexists. split; [exact T|].
  set (cards := querySelectorAll (elements st) 0).
  assert (Hlen : length (combine (seq 0 (length cards)) cards) = length cards)
    by (rewrite length_combine, length_seq; lia).
  destruct (@map_combine _ _ (seq 0 (length cards)) cards (length_seq _ _))
    as [Ef Es].
  repeat split.
  - rewrite map_map. cbn [reveal_target]. exact Es.
  - rewrite map_map, length_map, Hlen. cbn [reveal_delay].
    rewrite <- Ef at 2. now rewrite map_map.
  - rewrite length_map, Hlen. apply length_querySelectorAll.
Qed.

End CardFacts.

Section CardTimers.

Lemma length_update_at (f : styled -> styled) (l : list styled) (pos : nat) :
  length (update_at pos f l) = length l.
Proof.
  revert pos. induction l as [|a l IH]; intros [|pos]; cbn; try reflexivity.
  now rewrite IH.
Qed.

Lemma remove_nth_In (A : Type) (k : nat) (l : list A) (x : A) :
  In x (remove_nth k l) -> In x l.
Proof.
  revert k. induction l as [|a l IH]; intros [|k] Hin; cbn in *; try tauto.
  destruct Hin as [<-|Hin]; [now left | right; now apply (IH k)].
Qed.

Lemma remove_nth_keeps (k : nat) (l : list reveal_timer) (t : reveal_timer) (pos : nat) :
  nth_error l k = Some t -> reveal_target t <> pos ->
  In pos (map reveal_target l) ->
  In pos (map reveal_target (remove_nth k l)).
Proof.
  revert k. induction l as [|a l IH]; intros [|k] E Hne Hin; cbn in *;
    try discriminate.
  - injection E as ->. destruct Hin as [Hin|Hin]; [contradiction | exact Hin].
  - destruct Hin as [Hin|Hin]; [now left | right; now apply (IH k)].
Qed.

Lemma remove_nth_target (k : nat) (l : list reveal_timer) (pos : nat) :
  In pos (map reveal_target (remove_nth k l)) -> In pos (map reveal_target l).
Proof.
  intros Hin. apply in_map_iff in Hin. destruct Hin as (t & <- & Hin).
  apply in_map. now apply remove_nth_In with k.
Qed.

Lemma remove_nth_NoDup (k : nat) (l : list reveal_timer) (t : reveal_timer) :
  nth_error l k = Some t -> NoDup (map reveal_target l) ->
  NoDup (map reveal_target (remove_nth k l))
  /\ ~ In (reveal_target t) (map reveal_target (remove_nth k l)).
Proof.
  revert k. induction l as [|a l IH]; intros [|k] E Hn; cbn in E; try discriminate.
  - injection E as ->. cbn [map remove_nth] in *.
    apply NoDup_cons_iff in Hn. destruct Hn as [Hni Hn]. now split.
  - cbn [map remove_nth] in *.
    apply NoDup_cons_iff in Hn. destruct Hn as [Hni Hn].
    destruct (IH k E Hn) as [Hn' Hni'].
    split.
    + apply NoDup_cons; [|exact Hn'].
      intros Hin. apply Hni. now apply remove_nth_target with k.
    + intros [Heq|Hin]; [|now apply Hni'].
      apply Hni. rewrite Heq. apply in_map. now apply nth_error_In with k.
Qed.

Lemma querySelectorAll_NoDup (els : list styled) (p0 : nat) :
  NoDup (querySelectorAll els p0).
Proof.
  revert p0. induction els as [|a els IH]; intros p0; [apply NoDup_nil|].
  cbn [querySelectorAll]. destruct (is_card a); [|apply IH].
  apply NoDup_cons; [|apply IH].
  intros Hin. destruct (querySelectorAll_inv _ _ _ Hin) as (pos & e & Ep & _).
  lia.
Qed.

Lemma reveal_hidden (e : styled) : hidden e -> visible (reveal e).
Proof. intros (_ & _ & Ht). repeat split; exact Ht. Qed.

Lemma animating_start (st : stage) :
  reveal_timers st = [] -> animating (elements st) (animarCardsEntrada st).
Proof.
  intros Ht. destruct (animarCardsEntrada_spec st) as [E T].
  rewrite Ht in T. cbn [app] in T.
  assert (Hn : forall pos e,
            nth_error (elements (animarCardsEntrada st)) pos = Some e ->
            exists e0, nth_error (elements st) pos = Some e0
                       /\ e = (if is_card e0 then hide e0 else e0)).
  { intros pos e He. rewrite E, nth_error_map in He.
    destruct (nth_error (elements st) pos) as [e0|]; [|discriminate].
    injection He as <-. now exists e0. }
  assert (Htargets : map reveal_target (reveal_timers (animarCardsEntrada st))
                     = querySelectorAll (elements st) 0).
  { rewrite T, map_map. cbn [reveal_target].
    apply (@map_combine _ _ (seq 0 (length (querySelectorAll (elements st) 0)))).
    apply length_seq. }
  split; [|split; [|split; [|split]]].
  - rewrite E. apply length_map.
  - intros pos e He Hc. destruct (Hn _ _ He) as (e0 & E0 & ->).
    destruct (is_card e0) eqn:Ec; [|exact E0].
    change (is_card (hide e0)) with (is_card e0) in Hc. congruence.
  - intros pos e He Hc. destruct (Hn _ _ He) as (e0 & E0 & ->).
    destruct (is_card e0) eqn:Ec; [|congruence].
    left. split; [now repeat split|].
    rewrite Htargets. now apply (querySelectorAll_In (elements st) 0 pos E0).
  - rewrite Htargets. apply querySelectorAll_NoDup.
  - intros t Hin.
    assert (Hq : In (reveal_target t) (querySelectorAll (elements st) 0))
      by (rewrite <- Htargets; now apply in_map).
    destruct (querySelectorAll_inv _ _ _ Hq) as (pos & e0 & Ep & E0 & Hc).
    cbn in Ep. rewrite Ep, E, nth_error_map, E0. cbn [option_map].
    rewrite Hc. exists (hide e0). now split.
Qed.

Lemma animating_fire (orig : list styled) (k : nat) (st : stage) :
  animating orig st -> animating orig (fire_reveal k st).
Proof.
  intros (I4 & I1 & I2 & I5 & I3). unfold fire_reveal.
  destruct (nth_error (reveal_timers st) k) as [t|] eqn:Ek;
    [|now repeat split].
  destruct (I3 t (nth_error_In _ _ Ek)) as (et & Et & Hct).
  destruct (remove_nth_NoDup k _ Ek I5) as [Hnd Hgone].
  split; [|split; [|split; [|split]]]; cbn [elements reveal_timers].
  - now rewrite length_update_at.
  - intros pos e He Hc. rewrite nth_error_update_at in He.
    destruct (Nat.eqb_spec (reveal_target t) pos) as [<-|Hne]; [|now apply I1].
    rewrite Et in He. cbn in He. injection He as <-.
    change (is_card (reveal et)) with (is_card et) in Hc. congruence.
  - intros pos e He Hc. rewrite nth_error_update_at in He.
    destruct (Nat.eqb_spec (reveal_target t) pos) as [<-|Hne].
    + rewrite Et in He. cbn in He. injection He as <-.
      right. split; [|exact Hgone].
      destruct (I2 _ _ Et Hct) as [[Hh _]|[_ Hni]]; [now apply reveal_hidden|].
      exfalso. apply Hni. apply in_map. now apply nth_error_In with k.
    + destruct (I2 _ _ He Hc) as [[Hh Hin]|[Hv Hni]].
      * left. split; [exact Hh|]. now apply remove_nth_keeps with t.
      * right. split; [exact Hv|].
        intros Hin. apply Hni. now apply remove_nth_target with k.
  - exact Hnd.
  - intros t' Hin. apply remove_nth_In in Hin.
    destruct (I3 t' Hin) as (e' & E' & Hc').
    rewrite nth_error_update_at.
    destruct (Nat.eqb_spec (reveal_target t) (reveal_target t')) as [Heq|Hne].
    + rewrite E'. cbn. exists (reveal e'). now split.
    + exists e'. now split.
Qed.

(** X15: while the timers of the animation fire, in any order, an element that
    is not a card is never touched, a card is hidden exactly as long as its
    own timer is pending and visible from the moment it has fired, and no card
    has two timers; once no timer is left every card is visible. *)
Theorem cards_end_visible (st : stage) (ks : list nat) :
  reveal_timers st = [] ->
  animating (elements st) (fire_all ks (animarCardsEntrada st))
  /\ (reveal_timers (fire_all ks (animarCardsEntrada st)) = [] ->
      forall e, In e (elements (fire_all ks (animarCardsEntrada st))) ->
                is_card e = true -> visible e).
Proof.
  intros Ht.
  assert (Ha : animating (elements st) (fire_all ks (animarCardsEntrada st))).
  { generalize (animating_start st Ht).
    generalize (animarCardsEntrada st) as s.
    induction ks as [|k ks IH]; intros s Hs; [exact Hs|].
    cbn [fire_all]. apply IH. now apply animating_fire. }
  split; [exact Ha|].
  intros Hnil e Hin Hc. destruct Ha as (_ & _ & I2 & _).
  destruct (In_nth_error _ _ Hin) as [pos He].
  destruct (I2 _ _ He Hc) as [[_ Hp]|[Hv _]]; [|exact Hv].
  rewrite Hnil in Hp. destruct Hp.
Qed.

End CardTimers.

(* ================================================================== *)
(** * Debounce *)
(* ================================================================== *)

Section DebounceFacts.

Import Debounce.

Variable A : Type.
Variable wait : Z.

(** A call of the wrapper when at most its own timer is active: the old
    timer is cleared and a new one is the only one active. *)
Lemma executedFunction_arms (args : A) (st : state A) :
  (pending st = []
   \/ exists e, pending st = [e] /\ timeout st = Some (timer_id e)) ->
  pending (executedFunction wait args st)
  = [{| timer_id := next_timer_id st;
        due := now st + timer_delay wait;
        later_args := args |}]
  /\ timeout (executedFunction wait args st) = Some (next_timer_id st)
  /\ calls (executedFunction wait args st) = calls st
  /\ now (executedFunction wait args st) = now st.
Proof.
  intros [E|(e & E & Et)]; unfold executedFunction, clearTimeout.
  - destruct (timeout st); cbn; rewrite E; now repeat split.
  - rewrite Et. cbn. rewrite E. cbn. rewrite Nat.eqb_refl. now repeat split.
Qed.

Lemma elapse_idle (dt : Z) (st : state A) :
  pending st = [] ->
  pending (elapse dt st) = [] /\ calls (elapse dt st) = calls st
  /\ timeout (elapse dt st) = timeout st /\ now (elapse dt st) = now st + dt.
Proof.
  intros E. unfold elapse. rewrite E. cbn. now repeat split.
Qed.

Lemma elapse_not_due (dt : Z) (e : entry A) (st : state A) :
  pending st = [e] -> now st + dt < due e ->
  pending (elapse dt st) = [e] /\ calls (elapse dt st) = calls st
  /\ timeout (elapse dt st) = timeout st /\ now (elapse dt st) = now st + dt.
Proof.
  intros E Hd. unfold elapse. rewrite E. cbn [length run_due]. rewrite E.
  cbn [earliest]. destruct (Z.leb_spec (due e) (now st + dt)); [lia|].
  cbn. now repeat split.
Qed.

Lemma elapse_due (dt : Z) (e : entry A) (st : state A) :
  pending st = [e] -> timeout st = Some (timer_id e) -> due e <= now st + dt ->
  pending (elapse dt st) = [] /\ calls (elapse dt st) = calls st ++ [later_args e]
  /\ timeout (elapse dt st) = timeout st /\ now (elapse dt st) = now st + dt.
Proof.
  intros E Et Hd. unfold elapse. rewrite E. cbn [length run_due]. rewrite E.
  cbn [earliest]. destruct (Z.leb_spec (due e) (now st + dt)); [|lia].
  unfold fire_entry, later, clearTimeout. cbn. rewrite Et, E. cbn.
  rewrite Nat.eqb_refl. cbn. now repeat split.
Qed.

Lemma run_app (l1 l2 : list (action A)) (st : state A) :
  run wait (l1 ++ l2) st = run wait l2 (run wait l1 st).
Proof.
  revert st. induction l1 as [|a l1 IH]; intros st; [reflexivity|].
  cbn [app run]. apply IH.
Qed.

Lemma last_cons (m : list A) (a d : A) : last (a :: m) d = last m a.
Proof.
  revert a d. induction m as [|b m IH]; intros a d; [reflexivity|].
  change (last (a :: b :: m) d) with (last (b :: m) d).
  now rewrite !IH.
Qed.

(** Inside the range of a 32-bit signed integer the delay is [wait], or 0
    for a negative [wait]. *)
Lemma timer_delay_long :
  -2147483648 <= wait < 2147483648 -> timer_delay wait = Z.max 0 wait.
Proof.
  intros Hw. unfold timer_delay, to_long.
  rewrite Z.mod_small by lia. f_equal. lia.
Qed.

Lemma burst_armed (l : list (Z * A)) (T : Z) :
  (forall dt a, In (dt, a) l -> 0 <= dt < timer_delay wait) ->
  timer_delay wait <= T ->
  forall (args : A) (id : nat) (st : state A),
    pending st = [{| timer_id := id; due := now st + timer_delay wait;
                     later_args := args |}] ->
    timeout st = Some id ->
    calls (run wait (burst l ++ [Elapse T]) st)
    = calls st ++ [last (map snd l) args]
    /\ pending (run wait (burst l ++ [Elapse T]) st) = [].
Proof.
  intros Hl HT. induction l as [|[dt a] l IH]; intros args id st E Et.
  - cbn [burst app run act map last].
    assert (Hd : due {| timer_id := id; due := now st + timer_delay wait;
                         later_args := args |} <= now st + T) by (cbn; lia).
    destruct (elapse_due T st E Et Hd) as (Ep & Ec & _).
    now split.
  - cbn [burst app run act].
    assert (Hdt : 0 <= dt < timer_delay wait) by (apply (Hl dt a); now left).
    assert (Hd : now st + dt
                 < due {| timer_id := id; due := now st + timer_delay wait;
                          later_args := args |}) by (cbn; lia).
    destruct (elapse_not_due dt st E Hd) as (Ep & Ec & Eto & _).
    assert (J : pending (elapse dt st) = []
                \/ exists e, pending (elapse dt st) = [e]
                             /\ timeout (elapse dt st) = Some (timer_id e))
      by (right; eexists; split; [exact Ep | now rewrite Eto, Et]).
    destruct (executedFunction_arms a (elapse dt st) J) as (Ep' & Et' & Ec' & En').
    rewrite <- En' in Ep'.
    destruct (IH (fun dt' a' Hin => Hl dt' a' (or_intror Hin)) a _ _ Ep' Et')
      as [Hc Hp].
    split; [|exact Hp]. rewrite Hc, Ec', Ec. cbn [map snd].
    now rewrite last_cons.
Qed.

(** X16: for a [wait] in the range of a 32-bit signed integer, a burst of
    calls, each less than [wait] after the one before, followed by a pause of
    at least [wait]: [func] is called exactly once, with the arguments of the
    last call of the burst, and no timer is left. *)
Theorem debounce_burst (st : state A) (first : A) (l : list (Z * A)) (T : Z) :
  -2147483648 <= wait < 2147483648 ->
  pending st = [] ->
  (forall dt a, In (dt, a) l -> 0 <= dt < wait) ->
  Z.max 0 wait <= T ->
  calls (run wait (Invoke first :: burst l ++ [Elapse T]) st)
  = calls st ++ [last (map snd l) first]
  /\ pending (run wait (Invoke first :: burst l ++ [Elapse T]) st) = [].
Proof.
  intros Hw E Hl HT. cbn [run act].
  pose proof (timer_delay_long Hw) as D.
  assert (Hl' : forall dt a, In (dt, a) l -> 0 <= dt < timer_delay wait).
  { intros dt a Hin. specialize (Hl dt a Hin). lia. }
  assert (HT' : timer_delay wait <= T) by lia.
  destruct (executedFunction_arms first st (or_introl E)) as (Ep & Et & Ec & En).
  rewrite <- En in Ep.
  destruct (@burst_armed l T Hl' HT' first (next_timer_id st)
              (executedFunction wait first st) Ep Et) as [Hc Hp].
  split; [now rewrite Hc, Ec | exact Hp].
Qed.

(** X17: for a [wait] in the range of a 32-bit signed integer, calls each
    followed by a pause of at least [wait]: every one of them reaches [func],
    in order. *)
Theorem debounce_spaced (st : state A) (l : list (A * Z)) :
  -2147483648 <= wait < 2147483648 ->
  pending st = [] ->
  (forall a dt, In (a, dt) l -> Z.max 0 wait <= dt) ->
  calls (run wait (spaced l) st) = calls st ++ map fst l
  /\ pending (run wait (spaced l) st) = [].
Proof.
  intros Hw. pose proof (timer_delay_long Hw) as D.
  revert st. induction l as [|[a dt] l IH]; intros st E Hl.
  - cbn. now rewrite app_nil_r.
  - cbn [spaced run act].
    destruct (executedFunction_arms a st (or_introl E)) as (Ep & Et & Ec & En).
    assert (Hdt : Z.max 0 wait <= dt) by (apply (Hl a dt); now left).
    assert (Hd : due {| timer_id := next_timer_id st;
                         due := now st + timer_delay wait;
                         later_args := a |}
                 <= now (executedFunction wait a st) + dt) by (rewrite En; cbn; lia).
    destruct (elapse_due dt _ Ep Et Hd) as (Ep' & Ec' & _).
    destruct (IH _ Ep' (fun a' dt' Hin => Hl a' dt' (or_intror Hin))) as [Hc Hp].
    split; [|exact Hp]. rewrite Hc, Ec', Ec. cbn [later_args map fst].
    now rewrite <- app_assoc.
Qed.

Lemma act_invariant (a : action A) (st : state A) :
  (pending st = []
   \/ exists e, pending st = [e] /\ timeout st = Some (timer_id e)) ->
  (pending (act wait a st) = []
   \/ exists e, pending (act wait a st) = [e]
                /\ timeout (act wait a st) = Some (timer_id e))
  /\ (length (calls (act wait a st)) + length (pending (act wait a st))
      <= length (calls st) + length (pending st)
         + match a with Invoke _ => 1 | Elapse _ => 0 end)%nat.
Proof.
  intros J. destruct a as [dt|args]; cbn [act].
  - destruct J as [E|(e & E & Et)].
    + destruct (elapse_idle dt st E) as (Ep & Ec & _).
      split; [now left|]. rewrite Ep, Ec, E. lia.
    + destruct (Z.leb_spec (due e) (now st + dt)) as [Hd|Hd].
      * destruct (elapse_due dt st E Et Hd) as (Ep & Ec & _).
        split; [now left|]. rewrite Ep, Ec, E, length_app. cbn. lia.
      * destruct (elapse_not_due dt st E Hd) as (Ep & Ec & Eto & _).
        split; [right; exists e; split; [exact Ep | now rewrite Eto]|].
        rewrite Ep, Ec, E. lia.
  - destruct (executedFunction_arms args st J) as (Ep & Et & Ec & _).
    split; [right; eexists; split; [exact Ep | exact Et]|].
    rewrite Ep, Ec. cbn. lia.
Qed.

(** X18: whatever the calls and the pauses, at most one timer of the wrapper is
    active, it is the one the variable [timeout] holds, and [func] has been
    called at most once per call of the wrapper. *)
Theorem debounce_one_pending (l : list (action A)) (st : state A) :
  pending st = [] ->
  (length (pending (run wait l st)) <= 1)%nat
  /\ (forall e, In e (pending (run wait l st)) ->
                timeout (run wait l st) = Some (timer_id e))
  /\ (length (calls (run wait l st)) + length (pending (run wait l st))
      <= length (calls st) + invocations l)%nat.
Proof.
  intros E.
  assert (G : forall (l : list (action A)) (st : state A),
            (pending st = []
             \/ exists e, pending st = [e] /\ timeout st = Some (timer_id e)) ->
            (pending (run wait l st) = []
             \/ exists e, pending (run wait l st) = [e]
                          /\ timeout (run wait l st) = Some (timer_id e))
            /\ (length (calls (run wait l st)) + length (pending (run wait l st))
                <= length (calls st) + length (pending st) + invocations l)%nat).
  { clear. induction l as [|a l IH]; intros st J.
    - cbn [run invocations]. split; [exact J | lia].
    - cbn [run]. destruct (act_invariant a st J) as [J' Hn].
      destruct (IH _ J') as [J'' Hn']. split; [exact J''|].
      destruct a; cbn [invocations]; lia. }
  destruct (G l st (or_introl E)) as [[Ep|(e & Ep & Et)] Hn]; rewrite E in Hn;
    rewrite Ep in *; cbn in *.
  - repeat split; [lia | tauto | lia].
  - repeat split; [lia | intros e' [<-|[]]; exact Et | lia].
Qed.

End DebounceFacts.

(* ================================================================== *)
(** * The further statements at sample inputs *)
(* ================================================================== *)

Lemma overlapping_requests_witness :
  chatMessages
    (exec (settle (Json data_segunda))
       (exec (settle (Json data_primeira))
          (exec (@enviarMensagem Z)
             (set_chatInput_value (str "again") (exec (@enviarMensagem Z) page_hi)))))
  = chatMessages page_hi
      ++ [entry 0 s_user (str "hi"); entry 1 s_assistant s_pensando;
          entry 2 s_user (str "again")]
      ++ [entry 5 s_assistant (str "two")].
Proof.
  assert (H1 : trim (chatInput_value page_hi) <> []) by (vm_compute; discriminate).
  assert (H2 : trim (str "again") <> []) by (vm_compute; discriminate).
  assert (R1 : reply (Json data_primeira) = Some (str "one")) by reflexivity.
  assert (R2 : reply (Json data_segunda) = Some (str "two")) by reflexivity.
  exact (proj2 (proj2 (@overlapping_requests Z _ page_hi (str "again")
                         (Json data_primeira) (Json data_segunda)
                         (str "one") (str "two") H1 H2 R1 R2))).
Defined.

Lemma broken_reply_drops_user_entry_witness :
  map markup (chatMessages (exec (settle (Json (@VNull Z)))
                                 (exec (@enviarMensagem Z) page_hi)))
  = [p_open ++ s_erro_conexao ++ p_close].
Proof.
  assert (H1 : trim (chatInput_value page_hi) <> []) by (vm_compute; discriminate).
  destruct (@broken_reply_drops_user_entry Z _ page_hi VNull H1 (or_introl eq_refl))
    as [[id E] _].
  rewrite E. vm_compute. reflexivity.
Defined.

Lemma settle_empty_transcript_witness :
  settle (Json data_sucesso) empty_page = (Throw TypeError, empty_page).
Proof.
  apply (@settle_empty_transcript Z _ empty_page (Json data_sucesso)).
  reflexivity.
Defined.

Lemma adicionarMensagemChat_verbatim_witness :
  map markup (chatMessages
                (exec (adicionarMensagemChat s_assistant
                         (@VString Z (str "<img src=x onerror=alert(1)>")))
                      empty_page))
  = [str "<p><img src=x onerror=alert(1)></p>"].
Proof.
  apply (@adicionarMensagemChat_verbatim Z s_assistant
           (str "<img src=x onerror=alert(1)>") empty_page).
  repeat split; apply no_char_closed; reflexivity.
Defined.

Lemma html_bold_inside_fence_witness :
  html (str "```py
**kwargs**```") = str "<pre><strong>kwargs</strong></pre>".
Proof.
  apply (@html_bold_inside_fence (str "py") (str "kwargs")).
  - apply words_closed. reflexivity.
  - apply no_char_closed. reflexivity.
  - apply no_char_closed. reflexivity.
  - apply single_line_closed. reflexivity.
Defined.

Lemma html_unclosed_markers_witness :
  html (str "**bold") = str "**bold"
  /\ html (str "`bold") = str "`bold"
  /\ html (str "```bold") = str "<code></code>`bold".
Proof.
  apply (@html_unclosed_markers (str "bold")).
  - apply no_char_closed. reflexivity.
  - apply no_char_closed. reflexivity.
Defined.

Lemma toast_lifecycle_witness :
  body_children (step (Fire 0) (step (Fire 0) (step (Fire 0)
                   (step (Call (str "saved") None) empty_page)))) = []
  /\ timers (step (Fire 0) (step (Fire 0) (step (Fire 0)
               (step (Call (str "saved") None) empty_page)))) = [].
Proof.
  apply (@toast_lifecycle _ (str "saved") None empty_page).
  - reflexivity.
  - intros n [].
Defined.

Lemma replaced_toast_timers_are_harmless_witness :
  count_class s_toast_notification
    (exec (run_callback (ToastRemove 0))
          (step (Call (str "second") (Some s_error))
                (step (Call (str "first") None) empty_page))) = 1%nat.
Proof.
  apply (@replaced_toast_timers_are_harmless _ (str "first") (str "second")
           None (Some s_error) (ToastRemove 0) empty_page).
  - cbv. lia.
  - intros n [].
  - right. right. reflexivity.
Defined.

Lemma tooltip_leak_witness :
  count_class s_tooltip
    (exec esconderTooltip
       (exec (mostrarTooltip hovered_too) (exec (mostrarTooltip hovered) empty_page)))
  = 1%nat.
Proof.
  apply (@tooltip_leak Z _ hovered hovered_too 116 116 (str "ip") (str "op")
           empty_page); reflexivity.
Defined.

Lemma copiarParaClipboard_settled_witness :
  count_class s_toast_notification
    (exec (copiarParaClipboard_settle (Refused failed_to_fetch)) page_toast) = 1%nat
  /\ console_error (exec (copiarParaClipboard_settle (Refused failed_to_fetch)) page_toast)
     = [(s_erro_ao_copiar_, failed_to_fetch)].
Proof.
  assert (Hc : (count_class s_toast_notification page_toast <= 1)%nat)
    by (cbv; lia).
  destruct (@copiarParaClipboard_settled _ (Refused failed_to_fetch) page_toast Hc)
    as (_ & H1 & _ & H3 & _).
  split; [exact H1 | exact H3].
Defined.

Lemma toggleChat_flips_witness :
  is_open (toggleChat closed_chat) = true
  /\ has_class (str "chat-container") (chatContainer (toggleChat closed_chat)) = true.
Proof.
  destruct (toggleChat_flips closed_chat) as (H1 & _ & _ & H4).
  split; [exact H1|].
  rewrite H4; [reflexivity | discriminate].
Defined.

Lemma cards_end_visible_witness :
  animating (elements three_elements)
            (fire_all [1%nat; 0%nat] (animarCardsEntrada three_elements)).
Proof.
  apply (@cards_end_visible three_elements [1%nat; 0%nat]). reflexivity.
Defined.

Lemma debounce_burst_witness :
  Debounce.calls
    (Debounce.run 300
       (Debounce.Invoke (str "a")
          :: Debounce.burst [(100, str "ab"); (250, str "abc")]
          ++ [Debounce.Elapse 300])
       fresh_wrapper)
  = [str "abc"].
Proof.
  apply (@debounce_burst jsstring 300 fresh_wrapper (str "a")
           [(100, str "ab"); (250, str "abc")] 300).
  - lia.
  - reflexivity.
  - intros dt a [E|[E|[]]]; injection E as <- _; lia.
  - cbv. discriminate.
Defined.

Lemma debounce_spaced_witness :
  Debounce.calls
    (Debounce.run 300 (Debounce.spaced [(str "a", 300); (str "b", 1000)])
                  fresh_wrapper)
  = [str "a"; str "b"].
Proof.
  apply (@debounce_spaced jsstring 300 fresh_wrapper [(str "a", 300); (str "b", 1000)]).
  - lia.
  - reflexivity.
  - intros a dt [E|[E|[]]]; injection E as _ <-; cbv; discriminate.
Defined.

Lemma debounce_one_pending_witness :
  (length (Debounce.pending
             (Debounce.run 300
                [Debounce.Invoke (str "a"); Debounce.Elapse 100;
                 Debounce.Invoke (str "b"); Debounce.Elapse 299]
                fresh_wrapper)) <= 1)%nat.
Proof.
  apply (@debounce_one_pending jsstring 300
           [Debounce.Invoke (str "a"); Debounce.Elapse 100;
            Debounce.Invoke (str "b"); Debounce.Elapse 299] fresh_wrapper).
  reflexivity.
Defined.
